(** * Label encoding, metadata materialisation and batch collation of the
      chest X-ray walkthrough (get-started/walkthrough.ipynb)

    The notebook's locally written logic is embedded cell by cell:
    - the vocabulary extraction [np.unique(... .str.split("|") ...)],
    - the dictionary [label_index] and the encoder [string_to_N_hot],
    - the guarded write of [metadata.jsonl],
    - the collator [vit_data_collator],
    - the batch transform [XRayTransform.__call__],
    - the titles of the displayed examples,
    - the loop that collects the records of the training log.

    Python [str] values are Rocq strings (their UTF-8 bytes: the delimiter
    is one byte that occurs in no multi-byte sequence, and byte order
    agrees with code point order); [dict] values are finite maps; NumPy
    float arrays are lists of binary64 floats; exceptions are a result
    type.

    The library calls the cells make (NumPy, pandas, pathlib, PyTorch) are
    modelled by what they do on the values the cells pass them:
    - string arrays hold their strings as they are (NumPy's fixed-width
      storage, which drops trailing NUL characters, is left out);
    - the file system holds directories and regular files, each file
      with its text, and the text the JSON serializer writes for one
      record is a parameter;
    - a tensor is a shape with its elements in row-major order, and the
      conversion of a Python float to PyTorch's default element type is a
      parameter. *)

From Stdlib Require Import Floats.PrimFloat Strings.Ascii.
From stdpp Require Import gmap strings list sorting.

Open Scope string_scope.
Open Scope list_scope.

(** ** Exceptions *)

Inductive exn : Type :=
  | KeyError (key : string)
  | IndexError (index size : nat)
  | ValueError (msg : string)
  | RuntimeError (msg : string)
  | FileNotFoundError (path : string)
  | NotADirectoryError (path : string)
  | IsADirectoryError (path : string).

Inductive result (A : Type) : Type :=
  | Ok (a : A)
  | Raise (e : exn).
Arguments Ok {A} a.
Arguments Raise {A} e.

#[global] Instance result_ret : MRet result := @Ok.
#[global] Instance result_bind : MBind result := λ A B f r,
  match r with
  | Ok a => f a
  | Raise e => Raise e
  end.

Definition raises {A} (r : result A) : Prop := ∃ e, r = Raise e.

(** ** Strings *)

Definition delimiter : ascii := "|"%char.

(** [str.split("|")]: the pieces between the occurrences of the
    delimiter; the empty string gives one empty piece. *)
Fixpoint str_split (s : string) : list string :=
  match s with
  | EmptyString => [EmptyString]
  | String c s' =>
      if Ascii.eqb c delimiter then EmptyString :: str_split s'
      else match str_split s' with
           | [] => [String c EmptyString]
           | t :: ts => String c t :: ts
           end
  end.

(** ["|".join(tokens)], the way a raw label string is formed. *)
Fixpoint str_join (tokens : list string) : string :=
  match tokens with
  | [] => EmptyString
  | [t] => t
  | t :: ts => t +:+ String delimiter (str_join ts)
  end.

(** [sep.join(items)] *)
Fixpoint str_join_with (sep : string) (items : list string) : string :=
  match items with
  | [] => EmptyString
  | [t] => t
  | t :: ts => t +:+ sep +:+ str_join_with sep ts
  end.

Definition newline : ascii := ascii_of_nat 10.

(** ** NumPy on string arrays *)

(** Order of string comparison: lexicographic on code units. *)
Definition str_le (a b : string) : Prop := String.leb a b = true.
Definition str_lt (a b : string) : Prop := str_le a b ∧ a ≠ b.

#[global] Instance str_le_dec a b : Decision (str_le a b).
Proof. unfold str_le. apply _. Defined.

(** [ar.sort()] *)
Definition np_sort (ar : list string) : list string := merge_sort str_le ar.

(** The mask [ar[1:] != ar[:-1]] of [np.unique]: an element is kept when
    it differs from the one before it. *)
Fixpoint keep_changes (prev : string) (ar : list string) : list string :=
  match ar with
  | [] => []
  | x :: ar' =>
      if decide (x = prev) then keep_changes x ar'
      else x :: keep_changes x ar'
  end.

(** [np.unique(ar)]: sort, then keep the first element of every run. *)
Definition np_unique (ar : list string) : list string :=
  match np_sort ar with
  | [] => []
  | x :: ar' => x :: keep_changes x ar'
  end.

(** [np.concatenate] over a sequence of arrays; it refuses an empty
    sequence. *)
Definition np_concatenate (arrays : list (list string)) : result (list string) :=
  match arrays with
  | [] => Raise (ValueError "need at least one array to concatenate")
  | _ => Ok (concat arrays)
  end.

(** [series.aggregate(np.concatenate)] on the column of split labels.
    pandas first applies the function to each cell: a cell is a list of
    strings, which [np.concatenate] refuses as zero-dimensional arrays,
    and pandas then calls the function on the series itself. A series
    without cells has no cell to refuse and stays as it is. *)
Definition series_aggregate_concatenate (series : list (list string))
  : result (list string) :=
  match series with
  | [] => Ok []
  | _ :: _ => np_concatenate series
  end.

(** [np.zeros((n,), dtype=float)] *)
Definition np_zeros (n : nat) : list float := replicate n 0%float.

(** [label[i] = x], with NumPy's bounds check. *)
Definition np_setitem (label : list float) (i : nat) (x : float) : result (list float) :=
  if decide (i < length label) then Ok (<[i := x]> label)
  else Raise (IndexError i (length label)).

(** [label[indices] = x] for a list of indices. *)
Fixpoint np_setitems (label : list float) (indices : list nat) (x : float)
  : result (list float) :=
  match indices with
  | [] => Ok label
  | i :: indices' => label' ← np_setitem label i x; np_setitems label' indices' x
  end.

(** ** The label cells *)

(** [np.unique(data['Finding Labels'].str.split("|").aggregate(np.concatenate)).tolist()],
    as a function of the label column. *)
Definition extract_unique_labels (column : list string) : result (list string) :=
  tokens ← series_aggregate_concatenate (str_split <$> column);
  mret (np_unique tokens).

(** [enumerate(l)], counting from [start]. *)
Fixpoint enumerate_from {A} (start : nat) (l : list A) : list (nat * A) :=
  match l with
  | [] => []
  | v :: l' => (start, v) :: enumerate_from (S start) l'
  end.
Definition enumerate {A} (l : list A) : list (nat * A) := enumerate_from 0 l.

(** [{v: i for i, v in enumerate(unique_labels)}]: entries are stored in
    order, a later one replacing an earlier one with the same key. *)
Definition dict_of_enumeration (items : list (nat * string)) (d : gmap string nat)
  : gmap string nat :=
  fold_left (λ d '(i, v), <[v := i]> d) items d.

Definition make_label_index (unique_labels : list string) : gmap string nat :=
  dict_of_enumeration (enumerate unique_labels) ∅.

(** [d[k]] *)
Definition dict_getitem (d : gmap string nat) (k : string) : result nat :=
  match d !! k with
  | Some i => Ok i
  | None => Raise (KeyError k)
  end.

(** The module-level names that [string_to_N_hot] reads. *)
Record notebook : Type := Notebook {
  unique_labels : list string;
  label_index : gmap string nat
}.

(** The globals after the cell that defines [label_index] has run on the
    vocabulary [u]. *)
Definition notebook_of (u : list string) : notebook :=
  {| unique_labels := u; label_index := make_label_index u |}.

(** [string_to_N_hot], passing the globals through: the result is paired
    with the globals as the call leaves them. *)
Definition string_to_N_hot (string : string) (nb : notebook)
  : notebook * result (list float) :=
  (nb,
   true_index ← mapM (dict_getitem (label_index nb)) (str_split string);
   let label := np_zeros (length (unique_labels nb)) in
   np_setitems label true_index 1%float).

(** The vector alone. *)
Definition encode (u : list string) (string : string) : result (list float) :=
  snd (string_to_N_hot string (notebook_of u)).

(** Reading a multi-hot vector back: the vocabulary tokens at the indices
    whose entry is 1. *)
Fixpoint decode (u : list string) (label : list float) : list string :=
  match u, label with
  | t :: u', x :: label' =>
      if PrimFloat.eqb x 1%float then t :: decode u' label' else decode u' label'
  | _, _ => []
  end.

(** ** The data frame and the metadata file *)

(** One row of [data] once the column [labels] has been added. *)
Record frame_row : Type := FrameRow {
  col_Image_Index : string;
  col_Finding_Labels : string;
  col_labels : list float
}.

(** [data["labels"] = data["Finding Labels"].apply(string_to_N_hot)]: the
    encoder is called on the rows in order. *)
Fixpoint series_apply (column : list string) (nb : notebook)
  : notebook * result (list (list float)) :=
  match column with
  | [] => (nb, Ok [])
  | string :: column' =>
      match string_to_N_hot string nb with
      | (nb', Ok label) =>
          match series_apply column' nb' with
          | (nb'', Ok labels) => (nb'', Ok (label :: labels))
          | (nb'', Raise e) => (nb'', Raise e)
          end
      | (nb', Raise e) => (nb', Raise e)
      end
  end.

(** The two label cells on the columns of the frame (image index, finding
    labels) when every cell is a string: vocabulary, dictionary, then the
    new column. A field that [read_csv] reads as missing is no string;
    such frames are outside this function. *)
Definition label_cells (csv : list (string * string)) : result (list frame_row) :=
  u ← extract_unique_labels (snd <$> csv);
  labels ← snd (series_apply (snd <$> csv) (notebook_of u));
  mret (zip_with (λ '(image, finding) label, FrameRow image finding label) csv labels).

#[local] Unset Elimination Schemes.
Inductive json : Type :=
  | JString (s : string)
  | JNumber (x : float)
  | JArray (items : list json)
  | JObject (fields : list (string * json)).
#[local] Set Elimination Schemes.

(** The record of one row of
    [data[["Image Index", "labels"]].rename(columns={"Image Index": "file_name"})]
    under [orient='records']. *)
Definition json_record (r : frame_row) : json :=
  JObject [("file_name", JString (col_Image_Index r));
           ("labels", JArray (JNumber <$> col_labels r))].

(** [images_dir / "metadata.jsonl"] *)
Definition path_join (dir name : string) : string := dir +:+ "/" +:+ name.

(** A path [dir / name]; it knows the directory it lies in. *)
Record path : Type := Path {
  path_parent : string;
  path_name : string
}.

(** [str(path)], the name under which the file system knows the path. *)
Definition path_str (p : path) : string :=
  path_join (path_parent p) (path_name p).

(** What a name of the file system stands for. *)
Inductive node : Type :=
  | Directory
  | RegularFile (text : string).

(** What the cell does to the file system. *)
Inductive fs_event : Type :=
  | Written (path : string) (text : string).

Section materializer.
(** The text the serializer of [to_json] produces for one record. *)
Variable dumps : json → string.

(** The directories and regular files, by name. Access rights and device
    errors are left out. *)
Implicit Type fs : gmap string node.

(** [path.is_file()] *)
Definition is_file fs (p : path) : bool :=
  match fs !! path_str p with
  | Some (RegularFile _) => true
  | _ => false
  end.

(** [open(path, "w")]: the parent has to be a directory and the path
    must not be one. *)
Definition open_for_writing fs (p : path) : result unit :=
  match fs !! path_parent p with
  | None => Raise (FileNotFoundError (path_str p))
  | Some (RegularFile _) => Raise (NotADirectoryError (path_str p))
  | Some Directory =>
      match fs !! path_str p with
      | Some Directory => Raise (IsADirectoryError (path_str p))
      | _ => Ok ()
      end
  end.

(** The text of [frame.to_json(orient='records', lines=True)]: the
    records separated by newlines, and a newline at the end; a frame
    without rows gives the newline alone. *)
Definition json_lines (frame : list frame_row) : string :=
  str_join_with (String newline EmptyString) ((dumps ∘ json_record) <$> frame)
  +:+ String newline EmptyString.

(** [frame.to_json(path, orient='records', lines=True)]: the text is
    made first; the file is then opened, which may raise, and created or
    replaced with the text. *)
Definition to_json (frame : list frame_row) (p : path) fs
  : gmap string node * list fs_event * result unit :=
  let text := json_lines frame in
  match open_for_writing fs p with
  | Ok _ => (<[path_str p := RegularFile text]> fs, [Written (path_str p) text], Ok ())
  | Raise e => (fs, [], Raise e)
  end.

(** The metadata cell. *)
Definition write_metadata (images_dir : string) (data : list frame_row) fs
  : gmap string node * list fs_event * result unit :=
  let metadata_file := Path images_dir "metadata.jsonl" in
  if negb (is_file fs metadata_file)
  then to_json data (Path images_dir "metadata.jsonl") fs
  else (fs, [], Ok ()).
End materializer.

(** ** Tensors and the collator *)

(** A tensor: its shape and its elements in row-major order. *)
Record tensor : Type := Tensor {
  shape : list nat;
  storage : list float
}.

Definition numel (sh : list nat) : nat := foldr Nat.mul 1 sh.

Definition well_formed (t : tensor) : Prop := length (storage t) = numel (shape t).

(** [torch.stack(tensors)]: a new leading dimension; an empty list and
    tensors of unequal shape are refused. *)
Definition torch_stack (tensors : list tensor) : result tensor :=
  match tensors with
  | [] => Raise (RuntimeError "stack expects a non-empty TensorList")
  | t0 :: _ =>
      if forallb (λ t, bool_decide (shape t = shape t0)) tensors
      then Ok (Tensor (length tensors :: shape t0) (concat (storage <$> tensors)))
      else Raise (RuntimeError "stack expects each tensor to be equal size")
  end.

(** [t[i]]: the [i]-th slice along the leading dimension. *)
Definition tensor_getitem (t : tensor) (i : nat) : result tensor :=
  match shape t with
  | [] => Raise (IndexError i 0)
  | n :: sh =>
      if decide (i < n)
      then Ok (Tensor sh (take (numel sh) (drop (i * numel sh) (storage t))))
      else Raise (IndexError i n)
  end.

(** A transformed example, as the collator reads it. *)
Record example : Type := Example {
  pixel_values : tensor;
  labels : list float
}.

Section collator.
(** The conversion of a Python float to the default element type of
    [torch.tensor]. *)
Variable to_default_dtype : float → float.

(** [torch.tensor(rows)] for a list of lists of floats; rows of unequal
    length are refused. *)
Definition torch_tensor (rows : list (list float)) : result tensor :=
  match rows with
  | [] => Ok (Tensor [0] [])
  | r0 :: _ =>
      if forallb (λ r, bool_decide (length r = length r0)) rows
      then Ok (Tensor [length rows; length r0] (to_default_dtype <$> concat rows))
      else Raise (ValueError "expected sequence of equal length at dim 1")
  end.

Definition vit_data_collator (examples : list example) : result (gmap string tensor) :=
  pixel_values ← torch_stack (pixel_values <$> examples);
  labels ← torch_tensor (labels <$> examples);
  mret (<["labels" := labels]> (<["pixel_values" := pixel_values]> ∅)).
End collator.

(** ** The titles of the displayed examples *)

(** The truth value [np.argwhere] gives an entry: it is not zero. *)
Definition float_nonzero (x : float) : bool := negb (PrimFloat.eqb x 0%float).

(** [np.argwhere(label).flatten()]: the indices of the non-zero entries,
    in increasing order; [start] is the index of the first entry. *)
Fixpoint argwhere_from (start : nat) (label : list float) : list nat :=
  match label with
  | [] => []
  | x :: label' =>
      if float_nonzero x then start :: argwhere_from (S start) label'
      else argwhere_from (S start) label'
  end.
Definition np_argwhere_flatten (label : list float) : list nat :=
  argwhere_from 0 label.

(** [ar[i]], with NumPy's bounds check. *)
Definition np_getitem (ar : list string) (i : nat) : result string :=
  match ar !! i with
  | Some t => Ok t
  | None => Raise (IndexError i (length ar))
  end.

(** [ar[indices]] for an array of indices. *)
Definition np_getitems (ar : list string) (indices : list nat)
  : result (list string) :=
  mapM (np_getitem ar) indices.

(** The title of one subplot,
    [", ".join(unique_labels[np.argwhere(label).flatten()])], where
    [unique_labels] has been rebound to [np.array(unique_labels)]. *)
Definition subplot_title (unique_labels : list string) (label : list float)
  : result string :=
  names ← np_getitems unique_labels (np_argwhere_flatten label);
  mret (str_join_with ", " names).

(** ** The transform of a batch *)

Section XRayTransform.
(** What the lists of a batch hold (images, tensors, label vectors). *)
Variable value : Type.
(** [self.transforms], which may raise. *)
Variable transforms : value → result value.

(** [XRayTransform.__call__]: the batch is a dictionary of lists that the
    call changes in place and returns; the first component is the
    dictionary as the call leaves it. *)
Definition XRayTransform_call (example_batch : gmap string (list value))
  : gmap string (list value) * result (gmap string (list value)) :=
  match example_batch !! "image" with
  | None => (example_batch, Raise (KeyError "image"))
  | Some images =>
      match mapM transforms images with
      | Ok pixel_values =>
          let example_batch' := <["pixel_values" := pixel_values]> example_batch in
          (example_batch', Ok example_batch')
      | Raise e => (example_batch, Raise e)
      end
  end.
End XRayTransform.
Arguments XRayTransform_call {value} transforms example_batch.

(** ** The records of the training log *)

Definition apostrophe : ascii := "'"%char.
Definition double_quote : ascii := ascii_of_nat 34.

(** [s.split(sep)] for a separator of one character. *)
Fixpoint str_split_on (sep : ascii) (s : string) : list string :=
  match s with
  | EmptyString => [EmptyString]
  | String c s' =>
      if Ascii.eqb c sep then EmptyString :: str_split_on sep s'
      else match str_split_on sep s' with
           | [] => [String c EmptyString]
           | t :: ts => String c t :: ts
           end
  end.

(** [s.replace(old, new)] for strings of one character. *)
Fixpoint str_replace_char (old new : ascii) (s : string) : string :=
  match s with
  | EmptyString => EmptyString
  | String c s' =>
      String (if Ascii.eqb c old then new else c) (str_replace_char old new s')
  end.

(** [len(line) > 3 and line[:3] == "{'l"]. The length counts code units;
    behind a prefix of three one-unit characters the two counts exceed 3
    together. *)
Definition is_record_line (line : string) : bool :=
  Nat.ltb 3 (String.length line) && String.eqb (String.substring 0 3 line) "{'l".

(** The texts the cell hands to [json.loads]: the selected lines, each
    with its apostrophes replaced by double quotes. *)
Definition record_texts (lines : list string) : list string :=
  str_replace_char apostrophe double_quote
    <$> filter (λ line, is_record_line line = true) lines.

Section training_log.
(** [json.loads], which raises on text that is not JSON. *)
Variable json_loads : string → result json.

(** The loop over the lines: [values] grows by [append]; a raise leaves
    the loop with the values appended so far. *)
Fixpoint collect_records (lines : list string) (values : list json)
  : list json * result unit :=
  match lines with
  | [] => (values, Ok ())
  | line :: lines' =>
      if is_record_line line then
        match json_loads (str_replace_char apostrophe double_quote line) with
        | Ok v => collect_records lines' (values ++ [v])
        | Raise e => (values, Raise e)
        end
      else collect_records lines' values
  end.

(** The cell: [values = []], then the loop over
    [output.getvalue().split("\n")]. *)
Definition training_values (output : string) : list json * result unit :=
  collect_records (str_split_on newline output) [].
End training_log.

(** ** The order on strings *)

Lemma ascii_compare_refl c : Ascii.compare c c = Eq.
Proof. unfold Ascii.compare. apply N.compare_refl. Qed.

Lemma ascii_compare_lt_trans a b c :
  Ascii.compare a b = Lt → Ascii.compare b c = Lt → Ascii.compare a c = Lt.
Proof. unfold Ascii.compare. rewrite !N.compare_lt_iff. lia. Qed.

Lemma str_compare_refl s : String.compare s s = Eq.
Proof. induction s as [|c s IH]; simpl; [done|]. by rewrite ascii_compare_refl. Qed.

Lemma str_compare_lt_trans a b c :
  String.compare a b = Lt → String.compare b c = Lt → String.compare a c = Lt.
Proof.
  revert b c. induction a as [|x a IH]; intros [|y b] [|z c]; simpl; try done.
  destruct (Ascii.compare x y) eqn:Hxy; try done;
    destruct (Ascii.compare y z) eqn:Hyz; try done.
  - apply Ascii.compare_eq_iff in Hxy, Hyz. subst.
    rewrite ascii_compare_refl. apply IH.
  - apply Ascii.compare_eq_iff in Hxy. subst. by rewrite Hyz.
  - apply Ascii.compare_eq_iff in Hyz. subst. by rewrite Hxy.
  - by rewrite (ascii_compare_lt_trans _ _ _ Hxy Hyz).
Qed.

Lemma str_le_cases a b : str_le a b ↔ String.compare a b = Lt ∨ a = b.
Proof.
  unfold str_le, String.leb. split.
  - destruct (String.compare a b) eqn:H; try done.
    + right. by apply String.compare_eq_iff.
    + by left.
  - intros [->| ->]; [done|]. by rewrite str_compare_refl.
Qed.

#[global] Instance str_le_refl : Reflexive str_le.
Proof. intros a. apply str_le_cases. by right. Qed.

#[global] Instance str_le_trans : Transitive str_le.
Proof.
  intros a b c. rewrite !str_le_cases.
  intros [Hab| ->] [Hbc| ->]; eauto using str_compare_lt_trans.
Qed.

#[global] Instance str_le_total : Total str_le.
Proof. intros a b. apply String.leb_total. Qed.

#[global] Instance str_le_antisymm : AntiSymm (=) str_le.
Proof. intros a b. apply String.leb_antisym. Qed.

Lemma str_lt_le a b : str_lt a b → str_le a b.
Proof. by intros [? _]. Qed.

Lemma str_lt_irrefl a : ¬ str_lt a a.
Proof. by intros [_ ?]. Qed.

(** ** Sorted lists without repetition *)

Lemma sorted_lt_le l : StronglySorted str_lt l → StronglySorted str_le l.
Proof.
  induction 1 as [|x l _ IH Hx]; constructor; [done|].
  eapply Forall_impl; [exact Hx|]. apply str_lt_le.
Qed.

Lemma sorted_lt_NoDup l : StronglySorted str_lt l → NoDup l.
Proof.
  induction 1 as [|x l _ IH Hx]; constructor; [|done].
  intros Hin. rewrite Forall_forall in Hx. by apply (str_lt_irrefl x), Hx.
Qed.

(** Two strictly sorted lists with the same elements are the same list. *)
Lemma sorted_lt_unique l k :
  StronglySorted str_lt l → StronglySorted str_lt k →
  (∀ t, t ∈ l ↔ t ∈ k) → l = k.
Proof.
  intros Hl Hk Hlk. apply (StronglySorted_unique str_le).
  - by apply sorted_lt_le.
  - by apply sorted_lt_le.
  - apply NoDup_Permutation; auto using sorted_lt_NoDup.
Qed.

Lemma np_sort_sorted ar : StronglySorted str_le (np_sort ar).
Proof. apply (StronglySorted_merge_sort str_le); apply _. Qed.

Lemma np_sort_elem_of ar t : t ∈ np_sort ar ↔ t ∈ ar.
Proof. unfold np_sort. by rewrite merge_sort_Permutation. Qed.

Lemma keep_changes_spec prev ar :
  StronglySorted str_le ar → Forall (str_le prev) ar →
  StronglySorted str_lt (keep_changes prev ar)
  ∧ Forall (str_lt prev) (keep_changes prev ar)
  ∧ ∀ t, t ∈ prev :: keep_changes prev ar ↔ t ∈ prev :: ar.
Proof.
  intros Hs. revert prev. induction Hs as [|x ar Hs IH Hx]; intros prev Hprev.
  { simpl. split; [constructor|]. split; [constructor|done]. }
  apply Forall_cons in Hprev as [Hpx Hprev]. simpl.
  destruct (IH x Hx) as (IH1 & IH2 & IH3).
  destruct (decide (x = prev)) as [->|Hne].
  - split; [done|]. split; [done|]. intros t. rewrite IH3, !elem_of_cons. tauto.
  - assert (str_lt prev x) as Hlt by (split; [done|congruence]).
    split; [by constructor|]. split.
    + constructor; [done|]. eapply Forall_impl; [exact IH2|].
      intros t [Hxt Hne']. split; [by etrans|].
      intros ->. apply Hne. by apply (anti_symm str_le).
    + intros t. rewrite !(elem_of_cons _ t prev). by rewrite IH3.
Qed.

(** [np.unique] returns a strictly increasing list with the elements of
    its argument. *)
Lemma np_unique_sorted ar : StronglySorted str_lt (np_unique ar).
Proof.
  unfold np_unique. pose proof (np_sort_sorted ar) as Hs.
  destruct (np_sort ar) as [|x l]; [constructor|].
  apply StronglySorted_inv in Hs as [Hs Hx].
  destruct (keep_changes_spec x l Hs Hx) as (H1 & H2 & _). by constructor.
Qed.

Lemma np_unique_elem_of ar t : t ∈ np_unique ar ↔ t ∈ ar.
Proof.
  rewrite <-(np_sort_elem_of ar). unfold np_unique.
  pose proof (np_sort_sorted ar) as Hs.
  destruct (np_sort ar) as [|x l]; [done|].
  apply StronglySorted_inv in Hs as [Hs Hx].
  by destruct (keep_changes_spec x l Hs Hx) as (_ & _ & H3).
Qed.

Lemma np_unique_NoDup ar : NoDup (np_unique ar).
Proof. apply sorted_lt_NoDup, np_unique_sorted. Qed.

(** ** Splitting and joining *)

Definition delimiter_free (t : string) : Prop :=
  delimiter ∉ String.list_ascii_of_string t.

Lemma str_split_nonempty s : str_split s ≠ [].
Proof.
  destruct s as [|c s]; simpl; [done|].
  destruct (Ascii.eqb c delimiter); [done|]. by destruct (str_split s).
Qed.

Lemma str_split_delimiter_free s : Forall delimiter_free (str_split s).
Proof.
  induction s as [|c s IH]; simpl.
  { repeat constructor. unfold delimiter_free. simpl. apply not_elem_of_nil. }
  destruct (Ascii.eqb_spec c delimiter) as [->|Hc].
  { constructor; [|done]. unfold delimiter_free. simpl. apply not_elem_of_nil. }
  destruct (str_split s) as [|t ts].
  - repeat constructor. unfold delimiter_free. simpl.
    rewrite elem_of_cons, elem_of_nil. intros [?|[]]. congruence.
  - apply Forall_cons in IH as [Ht Hts]. constructor; [|done].
    unfold delimiter_free in *. simpl. rewrite elem_of_cons.
    intros [?|?]; [congruence|by apply Ht].
Qed.

Lemma str_split_token t : delimiter_free t → str_split t = [t].
Proof.
  unfold delimiter_free. induction t as [|c t IH]; simpl; [done|].
  rewrite elem_of_cons. intros Hc.
  destruct (Ascii.eqb_spec c delimiter) as [->|_]; [destruct Hc; by left|].
  rewrite IH; [done|]. intros ?. apply Hc. by right.
Qed.

Lemma str_split_app t s :
  delimiter_free t →
  str_split (t +:+ String delimiter s) = t :: str_split s.
Proof.
  unfold delimiter_free. induction t as [|c t IH]; simpl.
  { intros _. reflexivity. }
  rewrite elem_of_cons. intros Hc.
  destruct (Ascii.eqb_spec c delimiter) as [->|_]; [destruct Hc; by left|].
  rewrite IH; [done|]. intros ?. apply Hc. by right.
Qed.

(** Splitting undoes joining, for at least one token without delimiter. *)
Lemma str_split_join tokens :
  tokens ≠ [] → Forall delimiter_free tokens →
  str_split (str_join tokens) = tokens.
Proof.
  induction tokens as [|t ts IH]; [done|]. intros _ Hall.
  apply Forall_cons in Hall as [Ht Hts].
  destruct ts as [|t' ts]; [by apply str_split_token|].
  change (str_join (t :: t' :: ts)) with (t +:+ String delimiter (str_join (t' :: ts))).
  rewrite str_split_app by done. by rewrite IH.
Qed.

(** ** The dictionary [label_index] *)

Lemma enumerate_from_snoc {A} n (l : list A) v :
  enumerate_from n (l ++ [v]) = enumerate_from n l ++ [(n + length l, v)].
Proof.
  revert n. induction l as [|x l IH]; intros n; simpl.
  - by rewrite Nat.add_0_r.
  - rewrite IH. by rewrite Nat.add_succ_comm.
Qed.

Lemma make_label_index_nil : make_label_index [] = ∅.
Proof. done. Qed.

Lemma make_label_index_snoc u v :
  make_label_index (u ++ [v]) = <[v := length u]> (make_label_index u).
Proof.
  unfold make_label_index, enumerate, dict_of_enumeration.
  by rewrite enumerate_from_snoc, fold_left_app.
Qed.

(** An index stored in the dictionary is a position of its key. *)
Lemma make_label_index_lookup u t i :
  make_label_index u !! t = Some i → u !! i = Some t.
Proof.
  revert i. induction u as [|v u IH] using rev_ind; intros i.
  { by rewrite make_label_index_nil, lookup_empty. }
  rewrite make_label_index_snoc, lookup_insert. case_decide as Hv.
  - intros [= <-]. subst. by rewrite list_lookup_middle.
  - intros Hi. apply IH in Hi. by apply lookup_app_l_Some.
Qed.

(** The keys of the dictionary are the tokens of the vocabulary. *)
Lemma make_label_index_is_Some u t :
  is_Some (make_label_index u !! t) ↔ t ∈ u.
Proof.
  induction u as [|v u IH] using rev_ind.
  { rewrite make_label_index_nil, lookup_empty, elem_of_nil.
    split; [by intros [? ?]|done]. }
  rewrite make_label_index_snoc, lookup_insert, elem_of_app, list_elem_of_singleton.
  case_decide; subst; [split; eauto|]. rewrite IH. split; [tauto|].
  intros [?|?]; [done|congruence].
Qed.

Lemma make_label_index_dom u : dom (make_label_index u) = list_to_set u.
Proof.
  apply set_eq. intros t.
  by rewrite elem_of_dom, make_label_index_is_Some, elem_of_list_to_set.
Qed.

(** Without repetition every position is the index of its token. *)
Lemma make_label_index_NoDup u t i :
  NoDup u → (make_label_index u !! t = Some i ↔ u !! i = Some t).
Proof.
  intros Hu. split; [apply make_label_index_lookup|]. intros Hi.
  destruct (make_label_index_is_Some u t) as [_ [j Hj]].
  { by eapply list_elem_of_lookup_2. }
  rewrite Hj. f_equal. apply make_label_index_lookup in Hj.
  by eapply NoDup_lookup.
Qed.

Lemma make_label_index_size u : NoDup u → size (make_label_index u) = length u.
Proof.
  intros Hu. rewrite <-size_dom, make_label_index_dom.
  by rewrite size_list_to_set.
Qed.

(** ** Results *)

Lemma result_cases {A} (r : result A) : (∃ a, r = Ok a) ∨ raises r.
Proof. destruct r as [a|e]; [left|right]; eauto. by exists e. Qed.

Lemma Ok_not_raises {A} (r : result A) a : r = Ok a → ¬ raises r.
Proof. intros -> [e He]. discriminate. Qed.

Lemma mapM_Ok {A B} (f : A → result B) l k :
  mapM f l = Ok k ↔ Forall2 (λ x y, f x = Ok y) l k.
Proof.
  revert k. induction l as [|x l IH]; intros k; simpl.
  - split; [intros [= <-]; constructor|by inversion 1].
  - split.
    + destruct (f x) as [y|e] eqn:Hx; simpl; [|done].
      destruct (mapM f l) as [k'|e] eqn:Hl; simpl; [|done].
      intros [= <-]. constructor; [done|]. by apply IH.
    + inversion 1 as [|? y ? k' Hx Hl]; subst. rewrite Hx. simpl.
      apply IH in Hl. by rewrite Hl.
Qed.

Lemma mapM_raises {A B} (f : A → result B) l :
  raises (mapM f l) ↔ Exists (λ x, raises (f x)) l.
Proof.
  induction l as [|x l IH]; simpl.
  - split; [by intros [e ?]|by inversion 1].
  - rewrite Exists_cons, <-IH.
    destruct (f x) as [y|e] eqn:Hx; simpl.
    + destruct (mapM f l) as [k|e]; simpl.
      * split; [by intros [? ?]|]. intros [[? ?]|[? ?]]; done.
      * split; [right|]; by exists e.
    + split; [left|]; by exists e.
Qed.

(** ** The encoder *)

Lemma dict_getitem_Ok d k i : dict_getitem d k = Ok i ↔ d !! k = Some i.
Proof. unfold dict_getitem. destruct (d !! k); split; congruence. Qed.

Lemma dict_getitem_raises d k : raises (dict_getitem d k) ↔ d !! k = None.
Proof.
  unfold dict_getitem. destruct (d !! k) as [i|]; split; try done.
  - by intros [? ?].
  - intros _. by eexists.
Qed.

(** Assignment at indices in range succeeds and changes those entries
    only. *)
Lemma np_setitems_Ok label indices x :
  Forall (λ i, i < length label) indices →
  ∃ v, np_setitems label indices x = Ok v
       ∧ length v = length label
       ∧ ∀ j, j < length label →
           v !! j = if decide (j ∈ indices) then Some x else label !! j.
Proof.
  revert label. induction indices as [|i indices IH]; intros label Hall;
    cbn [np_setitems].
  { exists label. split; [done|]. split; [done|]. intros j _.
    by rewrite decide_False by apply not_elem_of_nil. }
  apply Forall_cons in Hall as [Hi Hall]. unfold np_setitem.
  rewrite decide_True by done. cbn [mbind result_bind].
  destruct (IH (<[i := x]> label)) as (v & Hv & Hlen & Hget).
  { by rewrite length_insert. }
  rewrite length_insert in Hlen. exists v. split; [done|]. split; [done|].
  intros j Hj. rewrite Hget by (by rewrite length_insert).
  destruct (decide (j ∈ indices)) as [Hin|Hnin].
  - rewrite decide_True; [done|]. by right.
  - destruct (decide (j = i)) as [->|Hne].
    + rewrite decide_True by left. by apply list_lookup_insert_eq.
    + rewrite decide_False.
      * by apply list_lookup_insert_ne.
      * rewrite elem_of_cons. tauto.
Qed.

Lemma string_to_N_hot_globals string nb : fst (string_to_N_hot string nb) = nb.
Proof. done. Qed.

(** The indices looked up for the tokens of a string. *)
Lemma true_index_Ok u tokens :
  (∀ t, t ∈ tokens → t ∈ u) →
  ∃ true_index,
    mapM (dict_getitem (make_label_index u)) tokens = Ok true_index
    ∧ Forall2 (λ t i, make_label_index u !! t = Some i) tokens true_index.
Proof.
  intros Hall.
  destruct (result_cases (mapM (dict_getitem (make_label_index u)) tokens))
    as [[k Hk]|Hr].
  - exists k. split; [done|]. apply mapM_Ok in Hk.
    eapply Forall2_impl; [exact Hk|]. intros t i. apply dict_getitem_Ok.
  - apply mapM_raises, Exists_exists in Hr as (t & Ht & Hr).
    apply dict_getitem_raises in Hr. apply Hall, make_label_index_is_Some in Ht.
    rewrite Hr in Ht. by destruct Ht.
Qed.

(** Encoding a string whose tokens are all known gives a vector as long as
    the vocabulary with 1 at the indices stored for its tokens and 0
    elsewhere. *)
Lemma encode_Ok u string :
  (∀ t, t ∈ str_split string → t ∈ u) →
  ∃ v, encode u string = Ok v
       ∧ length v = length u
       ∧ ∀ j, j < length u →
           v !! j = Some (if decide (Exists (λ t, make_label_index u !! t = Some j)
                                             (str_split string))
                          then 1%float else 0%float).
Proof.
  intros Hall. destruct (true_index_Ok u _ Hall) as (idx & Hidx & Hrel).
  destruct (np_setitems_Ok (np_zeros (length u)) idx 1%float)
    as (v & Hv & Hlen & Hget).
  { unfold np_zeros. rewrite length_replicate. apply Forall_forall. intros i Hi.
    apply list_elem_of_lookup in Hi as [n Hn].
    destruct (Forall2_lookup_r _ _ _ _ _ Hrel Hn) as (t & _ & Ht).
    apply make_label_index_lookup in Ht. by eapply lookup_lt_Some. }
  unfold np_zeros in Hlen, Hget. rewrite length_replicate in Hlen, Hget.
  exists v. split; [|split; [done|]].
  { unfold encode, string_to_N_hot. simpl. rewrite Hidx. exact Hv. }
  intros j Hj. rewrite Hget by done.
  destruct (decide (j ∈ idx)) as [Hin|Hnin].
  - rewrite decide_True; [done|].
    apply list_elem_of_lookup in Hin as [n Hn].
    destruct (Forall2_lookup_r _ _ _ _ _ Hrel Hn) as (t & Ht & Htj).
    apply Exists_exists. exists t. split; [|done]. by eapply list_elem_of_lookup_2.
  - rewrite decide_False; [by apply lookup_replicate_2|].
    rewrite Exists_exists. intros (t & Ht & Htj). apply Hnin.
    apply list_elem_of_lookup in Ht as [n Hn].
    destruct (Forall2_lookup_l _ _ _ _ _ Hrel Hn) as (i & Hi & Hti).
    assert (i = j) as -> by congruence. by eapply list_elem_of_lookup_2.
Qed.

(** With a vocabulary without repetition, the entry at the position of a
    token says whether the token occurs in the string. *)
Lemma encode_NoDup u string :
  NoDup u → (∀ t, t ∈ str_split string → t ∈ u) →
  ∃ v, encode u string = Ok v
       ∧ length v = length u
       ∧ ∀ i t, u !! i = Some t →
           v !! i = Some (if decide (t ∈ str_split string)
                          then 1%float else 0%float).
Proof.
  intros Hu Hall. destruct (encode_Ok u string Hall) as (v & Hv & Hlen & Hget).
  exists v. split; [done|]. split; [done|]. intros i t Hi.
  rewrite Hget by (by eapply lookup_lt_Some). f_equal.
  destruct (decide (t ∈ str_split string)) as [Hin|Hnin].
  - rewrite decide_True; [done|]. apply Exists_exists. exists t. split; [done|].
    by apply make_label_index_NoDup.
  - rewrite decide_False; [done|]. rewrite Exists_exists. intros (t' & Ht' & Hj).
    apply make_label_index_lookup in Hj. congruence.
Qed.

Lemma encode_raises u string :
  raises (encode u string) ↔ ∃ t, t ∈ str_split string ∧ t ∉ u.
Proof.
  split.
  - intros Hr.
    destruct (decide (Forall (λ t, t ∈ u) (str_split string))) as [Hall|Hex].
    + rewrite Forall_forall in Hall.
      destruct (encode_Ok u string Hall) as (v & Hv & _).
      by destruct (Ok_not_raises _ _ Hv).
    + apply not_Forall_Exists in Hex; [|apply _].
      apply Exists_exists in Hex as (t & Ht & Hn). eauto.
  - intros (t & Ht & Hn).
    assert (raises (mapM (dict_getitem (make_label_index u)) (str_split string)))
      as [e He].
    { apply mapM_raises, Exists_exists. exists t. split; [done|].
      apply dict_getitem_raises. apply eq_None_not_Some.
      by rewrite make_label_index_is_Some. }
    exists e. unfold encode, string_to_N_hot. simpl. by rewrite He.
Qed.

(** ** Decoding *)

Lemma float_one_ne_zero : 1%float ≠ 0%float.
Proof.
  intros H. apply (f_equal (λ x, PrimFloat.eqb x 1%float)) in H.
  vm_compute in H. discriminate.
Qed.

Lemma decode_elem_of u label t :
  t ∈ decode u label ↔
  ∃ i x, u !! i = Some t ∧ label !! i = Some x ∧ PrimFloat.eqb x 1%float = true.
Proof.
  revert label. induction u as [|t' u IH]; intros [|x label]; simpl.
  - rewrite elem_of_nil. split; [done|]. by intros (i & y & ? & _).
  - rewrite elem_of_nil. split; [done|]. by intros (i & y & ? & _).
  - rewrite elem_of_nil. split; [done|]. by intros (i & y & _ & ? & _).
  - destruct (PrimFloat.eqb x 1%float) eqn:Hx.
    + rewrite elem_of_cons, IH. split.
      * intros [->|(i & y & Hi & Hy & Hy1)]; [by exists 0, x|].
        by exists (S i), y.
      * intros ([|i] & y & Hi & Hy & Hy1); simpl in *.
        -- left. congruence.
        -- right. by exists i, y.
    + rewrite IH. split.
      * intros (i & y & Hi & Hy & Hy1). by exists (S i), y.
      * intros ([|i] & y & Hi & Hy & Hy1); simpl in *; [congruence|].
        by exists i, y.
Qed.

(** Decoding an encoded string gives the tokens of the string. *)
Lemma decode_encode u string v t :
  NoDup u → (∀ t, t ∈ str_split string → t ∈ u) → encode u string = Ok v →
  t ∈ decode u v ↔ t ∈ str_split string.
Proof.
  intros Hu Hall Hv.
  destruct (encode_NoDup u string Hu Hall) as (v' & Hv' & Hlen & Hget).
  assert (v' = v) as -> by congruence. rewrite decode_elem_of. split.
  - intros (i & x & Hi & Hx & Hx1). rewrite (Hget i t Hi) in Hx.
    destruct (decide (t ∈ str_split string)); [done|].
    injection Hx as <-. vm_compute in Hx1. discriminate.
  - intros Ht. destruct (proj1 (list_elem_of_lookup u t) (Hall t Ht)) as [i Hi].
    exists i, 1%float. split; [done|]. split; [|done].
    rewrite (Hget i t Hi). by rewrite decide_True.
Qed.

(** ** Vocabulary extraction *)

Lemma extract_unique_labels_Ok column u :
  extract_unique_labels column = Ok u ↔
  u = np_unique (concat (str_split <$> column)).
Proof.
  unfold extract_unique_labels, series_aggregate_concatenate, np_concatenate.
  destruct column as [|s column]; simpl.
  - split; [by intros [= <-]|]. by intros ->.
  - split; [by intros [= <-]|]. by intros ->.
Qed.

Lemma mapM_Raise {A B} (f : A → result B) l e :
  mapM f l = Raise e → ∃ x, x ∈ l ∧ f x = Raise e.
Proof.
  induction l as [|x l IH]; simpl; [done|].
  destruct (f x) as [y|e'] eqn:Hx; simpl.
  - destruct (mapM f l) as [k|e'']; simpl; [done|]. intros [= ->].
    destruct IH as (x' & Hin & Hx'); [done|]. exists x'. split; [by right|done].
  - intros [= ->]. exists x. split; [by left|done].
Qed.

Lemma elem_of_concat {A} (ls : list (list A)) x :
  x ∈ concat ls ↔ ∃ l, l ∈ ls ∧ x ∈ l.
Proof.
  induction ls as [|l ls IH]; simpl.
  - rewrite elem_of_nil. split; [done|]. intros (l & Hl & _).
    by apply elem_of_nil in Hl.
  - rewrite elem_of_app, IH. split.
    + intros [Hx|(l' & Hl' & Hx)]; [exists l|exists l']; split; try done;
        by constructor.
    + intros (l' & Hl' & Hx). apply elem_of_cons in Hl' as [->|Hl']; eauto.
Qed.

(** The tokens of an extracted vocabulary come from splitting, so none
    contains the delimiter. *)
Lemma extracted_delimiter_free column u :
  extract_unique_labels column = Ok u → Forall delimiter_free u.
Proof.
  intros ->%extract_unique_labels_Ok. apply Forall_forall. intros t.
  rewrite np_unique_elem_of, elem_of_concat.
  intros (ts & Hts & Ht). apply list_elem_of_fmap in Hts as (s & -> & _).
  pose proof (str_split_delimiter_free s) as Hs.
  rewrite Forall_forall in Hs. by apply Hs.
Qed.

Lemma extracted_NoDup column u : extract_unique_labels column = Ok u → NoDup u.
Proof. intros ->%extract_unique_labels_Ok. apply np_unique_NoDup. Qed.

(** ** The label cells on a whole column *)

Lemma series_apply_Ok u column :
  (∀ s t, s ∈ column → t ∈ str_split s → t ∈ u) →
  ∃ labels, series_apply column (notebook_of u) = (notebook_of u, Ok labels)
          ∧ Forall2 (λ s v, encode u s = Ok v) column labels.
Proof.
  induction column as [|s column IH]; intros Hall; cbn [series_apply].
  { exists []. split; [done|constructor]. }
  destruct (encode_Ok u s) as (v & Hv & _).
  { intros t. apply Hall. by left. }
  destruct IH as (labels & Hrun & Hrel).
  { intros s' t Hs'. apply Hall. by right. }
  exists (v :: labels). split; [|by constructor].
  rewrite (surjective_pairing (string_to_N_hot s (notebook_of u))).
  rewrite string_to_N_hot_globals. fold (encode u s). rewrite Hv.
  by rewrite Hrun.
Qed.

(** A vocabulary extracted from a column knows every token of the
    column, so the label cells raise on no column of strings. *)
Lemma label_cells_Ok csv :
  ∃ u rows,
    extract_unique_labels (snd <$> csv) = Ok u
    ∧ label_cells csv = Ok rows
    ∧ Forall2 (λ '(image, finding) r,
                 col_Image_Index r = image ∧ col_Finding_Labels r = finding
                 ∧ encode u finding = Ok (col_labels r)) csv rows.
Proof.
  set (u := np_unique (concat (str_split <$> (snd <$> csv)))).
  assert (extract_unique_labels (snd <$> csv) = Ok u) as Hu.
  { by apply extract_unique_labels_Ok. }
  destruct (series_apply_Ok u (snd <$> csv)) as (labels & Hrun & Hrel).
  { intros s t Hs Ht. unfold u. apply np_unique_elem_of, elem_of_concat.
    exists (str_split s). split; [by apply list_elem_of_fmap_2|done]. }
  exists u, (zip_with (λ '(image, finding) label, FrameRow image finding label)
               csv labels).
  split; [done|]. split.
  { unfold label_cells. rewrite Hu. cbn [mbind result_bind]. by rewrite Hrun. }
  clear Hu Hrun. clearbody u. apply Forall2_fmap_l in Hrel.
  induction Hrel as [|[image finding] v rest labels Hv _ IH]; simpl;
    constructor; done.
Qed.

(** ** Tensors *)

Lemma forallb_bool_decide {A} (P : A → Prop) `{∀ x, Decision (P x)} (l : list A) :
  forallb (λ x, bool_decide (P x)) l = true ↔ Forall P l.
Proof.
  induction l as [|x l IH]; simpl.
  - split; [constructor|done].
  - rewrite andb_true_iff, IH, Forall_cons, bool_decide_eq_true. tauto.
Qed.

(** The [i]-th block of a concatenation of blocks of one length. *)
Lemma take_drop_concat {A} (ls : list (list A)) (m i : nat) (l : list A) :
  Forall (λ l, length l = m) ls → ls !! i = Some l →
  take m (drop (i * m) (concat ls)) = l.
Proof.
  intros Hall. revert i. induction Hall as [|l0 ls Hl0 Hall IH]; intros i; [done|].
  destruct i as [|i]; simpl.
  - intros [= ->]. by apply take_app_length'.
  - intros Hi. rewrite drop_app_add' by done. by apply IH.
Qed.

Lemma length_concat_blocks {A} (ls : list (list A)) (m : nat) :
  Forall (λ l, length l = m) ls → length (concat ls) = length ls * m.
Proof.
  induction 1 as [|l ls Hl _ IH]; simpl; [done|].
  rewrite length_app. lia.
Qed.

Lemma torch_stack_Ok tensors sh :
  tensors ≠ [] → Forall (λ t, shape t = sh) tensors →
  torch_stack tensors
  = Ok (Tensor (length tensors :: sh) (concat (storage <$> tensors))).
Proof.
  destruct tensors as [|t0 tensors]; [done|]. intros _ Hall.
  unfold torch_stack. pose proof Hall as [Ht0 _]%Forall_cons.
  assert (forallb (λ t, bool_decide (shape t = shape t0)) (t0 :: tensors) = true)
    as ->; [|by rewrite Ht0].
  apply forallb_bool_decide. eapply Forall_impl; [exact Hall|].
  intros t. simpl. congruence.
Qed.

Lemma torch_stack_raises tensors t1 t2 :
  t1 ∈ tensors → t2 ∈ tensors → shape t1 ≠ shape t2 →
  raises (torch_stack tensors).
Proof.
  intros H1 H2 Hne. destruct tensors as [|t0 tensors].
  { by apply elem_of_nil in H1. }
  unfold torch_stack.
  destruct (forallb _ (t0 :: tensors)) eqn:Hall; [|by eexists].
  apply forallb_bool_decide in Hall. rewrite Forall_forall in Hall.
  destruct Hne. by rewrite (Hall _ H1), (Hall _ H2).
Qed.

Section collator_facts.
Variable to_default_dtype : float → float.

Lemma torch_tensor_Ok rows n :
  rows ≠ [] → Forall (λ r, length r = n) rows →
  torch_tensor to_default_dtype rows
  = Ok (Tensor [length rows; n] (to_default_dtype <$> concat rows)).
Proof.
  destruct rows as [|r0 rows]; [done|]. intros _ Hall.
  unfold torch_tensor. pose proof Hall as [Hr0 _]%Forall_cons.
  assert (forallb (λ r, bool_decide (length r = length r0)) (r0 :: rows) = true)
    as ->; [|by rewrite Hr0].
  apply forallb_bool_decide. eapply Forall_impl; [exact Hall|].
  intros r. simpl. congruence.
Qed.

Lemma torch_tensor_raises rows r1 r2 :
  r1 ∈ rows → r2 ∈ rows → length r1 ≠ length r2 →
  raises (torch_tensor to_default_dtype rows).
Proof.
  intros H1 H2 Hne. destruct rows as [|r0 rows].
  { by apply elem_of_nil in H1. }
  unfold torch_tensor.
  destruct (forallb _ (r0 :: rows)) eqn:Hall; [|by eexists].
  apply forallb_bool_decide in Hall. rewrite Forall_forall in Hall.
  destruct Hne. by rewrite (Hall _ H1), (Hall _ H2).
Qed.

(** What the collator returns for at least one example, all of one
    pixel shape and one label length. *)
Lemma vit_data_collator_Ok examples sh n :
  examples ≠ [] →
  Forall (λ e, shape (pixel_values e) = sh) examples →
  Forall (λ e, length (labels e) = n) examples →
  vit_data_collator to_default_dtype examples
  = Ok (<["labels" := Tensor [length examples; n]
                        (to_default_dtype <$> concat (labels <$> examples))]>
        (<["pixel_values" := Tensor (length examples :: sh)
                               (concat (storage <$> (pixel_values <$> examples)))]>
         ∅)).
Proof.
  intros Hne Hsh Hn. unfold vit_data_collator.
  rewrite (torch_stack_Ok _ sh).
  - cbn [mbind result_bind]. rewrite (torch_tensor_Ok _ n).
    + cbn [mbind result_bind mret result_ret]. by rewrite !length_fmap.
    + by destruct examples.
    + by apply Forall_fmap.
  - by destruct examples.
  - by apply Forall_fmap.
Qed.

Lemma vit_data_collator_raises examples e1 e2 :
  e1 ∈ examples → e2 ∈ examples →
  shape (pixel_values e1) ≠ shape (pixel_values e2)
  ∨ length (labels e1) ≠ length (labels e2) →
  raises (vit_data_collator to_default_dtype examples).
Proof.
  intros H1 H2 Hne. unfold vit_data_collator.
  destruct (torch_stack (pixel_values <$> examples)) as [pv|e] eqn:Hpv;
    [|by eexists].
  cbn [mbind result_bind].
  destruct (torch_tensor to_default_dtype (labels <$> examples))
    as [lb|e] eqn:Hlb; [|by eexists].
  destruct Hne as [Hne|Hne].
  - destruct (torch_stack_raises (pixel_values <$> examples)
                (pixel_values e1) (pixel_values e2)) as [e He];
      [by apply list_elem_of_fmap_2..|done|congruence].
  - destruct (torch_tensor_raises (labels <$> examples)
                (labels e1) (labels e2)) as [e He];
      [by apply list_elem_of_fmap_2..|done|congruence].
Qed.
End collator_facts.

(** The batch shape of the walkthrough: two examples of shape (3,224,224)
    are collated to pixel values of shape (2,3,224,224). *)
Lemma collator_shape_example to_default_dtype (a b : example) :
  shape (pixel_values a) = [3; 224; 224] →
  shape (pixel_values b) = [3; 224; 224] →
  length (labels a) = length (labels b) →
  ∃ batch pv, vit_data_collator to_default_dtype [a; b] = Ok batch
            ∧ batch !! "pixel_values" = Some pv
            ∧ shape pv = [2; 3; 224; 224].
Proof.
  intros Ha Hb Hab.
  rewrite (vit_data_collator_Ok _ [a; b] [3; 224; 224] (length (labels a)));
    [|done|by repeat constructor..].
  eexists _, _. split; [done|]. split.
  - rewrite lookup_insert_ne by done. by rewrite lookup_insert_eq.
  - done.
Qed.

(** ** The label encoder: the properties of the specification *)

(** C2: on a non-empty label column the extraction succeeds and returns
    the strictly increasing (sorted, deduplicated) list of the tokens of
    all rows; this list is the only one of that kind, a second run and a
    run on the rows in another order return it again, and the dictionary
    assigns one index to each of its tokens, the token's position. *)
Theorem vocabulary_extraction (column : list string) :
  column ≠ [] →
  ∃ u, extract_unique_labels column = Ok u
    ∧ StronglySorted str_lt u
    ∧ (∀ t, t ∈ u ↔ t ∈ concat (str_split <$> column))
    ∧ (∀ u', StronglySorted str_lt u' →
             (∀ t, t ∈ u' ↔ t ∈ concat (str_split <$> column)) → u' = u)
    ∧ (∀ u', extract_unique_labels column = Ok u' → u' = u)
    ∧ (∀ column', column' ≡ₚ column → extract_unique_labels column' = Ok u)
    ∧ size (make_label_index u) = length u
    ∧ (∀ t i, make_label_index u !! t = Some i ↔ u !! i = Some t).
Proof.
  intros Hne. set (u := np_unique (concat (str_split <$> column))).
  assert (extract_unique_labels column = Ok u) as Hu
    by by apply extract_unique_labels_Ok.
  exists u. split; [done|].
  split; [apply np_unique_sorted|].
  split; [intros t; apply np_unique_elem_of|].
  split.
  { intros u' Hs Hel. apply sorted_lt_unique; [done|apply np_unique_sorted|].
    intros t. unfold u. by rewrite Hel, np_unique_elem_of. }
  split; [intros u' Hu'; congruence|].
  split.
  { intros column' Hperm. apply extract_unique_labels_Ok.
    apply sorted_lt_unique; [apply np_unique_sorted..|].
    intros t. unfold u. rewrite !np_unique_elem_of, !elem_of_concat.
    assert (∀ l : list string,
              l ∈ str_split <$> column' ↔ l ∈ str_split <$> column) as Hl
      by (intros l; by rewrite Hperm).
    split; intros (l & Hin & Ht); exists l; (split; [by apply Hl|done]). }
  split; [apply make_label_index_size, np_unique_NoDup|].
  intros t i. apply make_label_index_NoDup, np_unique_NoDup.
Qed.

Lemma vocabulary_extraction_witness :
  ["Effusion|Infiltration"; "No Finding"; "Infiltration"] ≠ []
  ∧ ∃ u, extract_unique_labels
           ["Effusion|Infiltration"; "No Finding"; "Infiltration"] = Ok u
      ∧ StronglySorted str_lt u.
Proof.
  split; [discriminate|].
  destruct (vocabulary_extraction
              ["Effusion|Infiltration"; "No Finding"; "Infiltration"])
    as (u & Hu & Hs & _); [discriminate|].
  exists u. by split.
Defined.

(** C3: encoding raises if and only if some token of the split string is
    absent from the vocabulary, and what it raises is the failed lookup of
    such a token; when every token is in the vocabulary it returns a
    vector. *)
Theorem encoding_fails_iff_unknown_token (u : list string) (string : string) :
  (raises (snd (string_to_N_hot string (notebook_of u)))
     ↔ ∃ t, t ∈ str_split string ∧ t ∉ u)
  ∧ (∀ e, snd (string_to_N_hot string (notebook_of u)) = Raise e →
          ∃ t, e = KeyError t ∧ t ∈ str_split string ∧ t ∉ u)
  ∧ ((∀ t, t ∈ str_split string → t ∈ u) →
     ∃ v, snd (string_to_N_hot string (notebook_of u)) = Ok v).
Proof.
  split; [apply encode_raises|]. split.
  - intros e He.
    destruct (result_cases (mapM (dict_getitem (make_label_index u))
                              (str_split string))) as [[idx Hidx]|[e' He']].
    + assert (raises (encode u string)) as Hr by by exists e.
      apply encode_raises in Hr as (t & Ht & Hn).
      apply mapM_Ok in Hidx.
      apply list_elem_of_lookup in Ht as [n Hn'].
      destruct (Forall2_lookup_l _ _ _ _ _ Hidx Hn') as (i & _ & Hi).
      apply dict_getitem_Ok in Hi. destruct Hn.
      apply make_label_index_is_Some. by exists i.
    + unfold string_to_N_hot in He. simpl in He. rewrite He' in He.
      injection He as ->.
      apply mapM_Raise in He' as (t & Ht & Hraise).
      unfold dict_getitem in Hraise.
      destruct (make_label_index u !! t) as [i|] eqn:Hl; [done|].
      injection Hraise as <-. exists t. split; [done|]. split; [done|].
      rewrite <-make_label_index_is_Some, Hl. by intros [? ?].
  - intros Hall. destruct (encode_Ok u string Hall) as (v & Hv & _). by exists v.
Qed.

(** C4: for a vocabulary without repetition and a string whose tokens are
    all in it, [string_to_N_hot] returns a vector as long as the
    vocabulary whose entry at the position of a token is 1.0 when the
    token occurs in the split string and 0.0 otherwise; the globals are
    left as they were. *)
Theorem string_to_N_hot_multi_hot (u : list string) (string : string) :
  NoDup u →
  (∀ t, t ∈ str_split string → t ∈ u) →
  ∃ v, string_to_N_hot string (notebook_of u) = (notebook_of u, Ok v)
     ∧ length v = length u
     ∧ ∀ i t, u !! i = Some t →
         v !! i = Some (if decide (t ∈ str_split string)
                        then 1%float else 0%float).
Proof.
  intros Hu Hall. destruct (encode_NoDup u string Hu Hall) as (v & Hv & Hrest).
  exists v. split; [|done].
  rewrite (surjective_pairing (string_to_N_hot string (notebook_of u))).
  rewrite string_to_N_hot_globals. f_equal. exact Hv.
Qed.

Lemma string_to_N_hot_multi_hot_witness :
  let u := ["Effusion"; "Infiltration"; "No Finding"] in
  NoDup u
  ∧ (∀ t, t ∈ str_split "Effusion|Infiltration" → t ∈ u)
  ∧ ∃ v, string_to_N_hot "Effusion|Infiltration" (notebook_of u)
         = (notebook_of u, Ok v)
       ∧ length v = length u.
Proof.
  intros u.
  assert (NoDup u) as Hu by (apply (bool_decide_unpack _); vm_compute; exact I).
  assert (∀ t, t ∈ str_split "Effusion|Infiltration" → t ∈ u) as Hall.
  { apply Forall_forall. apply (bool_decide_unpack _). vm_compute. exact I. }
  split; [done|]. split; [done|].
  destruct (string_to_N_hot_multi_hot u "Effusion|Infiltration" Hu Hall)
    as (v & Hv & Hlen & _).
  exists v. by split.
Defined.

(** C9: a second run of [string_to_N_hot] on the same string, started
    from the globals the first run left, returns what the first run
    returned; for a fixed vocabulary the vector is a function of the
    string. *)
Theorem encoding_deterministic (nb : notebook) (string : string) :
  snd (string_to_N_hot string (fst (string_to_N_hot string nb)))
  = snd (string_to_N_hot string nb)
  ∧ ∀ r1 r2, snd (string_to_N_hot string nb) = r1 →
             snd (string_to_N_hot string nb) = r2 → r1 = r2.
Proof.
  split.
  - by rewrite string_to_N_hot_globals.
  - intros r1 r2 <- <-. done.
Qed.

(** C1 (as amended): for a vocabulary extracted from a label column and a
    non-empty collection of its tokens, the string joined from the tokens
    with the delimiter encodes to a vector, and the vocabulary tokens at
    the indices whose entry is 1 are exactly the tokens obtained by
    splitting the string, which are the tokens joined. *)
Theorem encode_decode_round_trip (column u tokens : list string) :
  extract_unique_labels column = Ok u →
  tokens ≠ [] →
  (∀ t, t ∈ tokens → t ∈ u) →
  ∃ v, snd (string_to_N_hot (str_join tokens) (notebook_of u)) = Ok v
     ∧ (∀ t, t ∈ decode u v ↔ t ∈ str_split (str_join tokens))
     ∧ (∀ t, t ∈ decode u v ↔ t ∈ tokens).
Proof.
  intros Hu Hne Hall.
  assert (str_split (str_join tokens) = tokens) as Hsplit.
  { apply str_split_join; [done|]. apply Forall_forall. intros t Ht.
    pose proof (extracted_delimiter_free _ _ Hu) as Hfree.
    rewrite Forall_forall in Hfree. by apply Hfree, Hall. }
  assert (∀ t, t ∈ str_split (str_join tokens) → t ∈ u) as Hall'
    by by rewrite Hsplit.
  destruct (encode_Ok u (str_join tokens) Hall') as (v & Hv & _).
  exists v. split; [done|].
  assert (∀ t, t ∈ decode u v ↔ t ∈ str_split (str_join tokens)) as Hdec.
  { intros t. eapply decode_encode; eauto using extracted_NoDup. }
  split; [done|]. intros t. by rewrite Hdec, Hsplit.
Qed.

Lemma encode_decode_round_trip_witness :
  let column := ["Effusion|Infiltration"; "No Finding"; "Infiltration"] in
  let u := ["Effusion"; "Infiltration"; "No Finding"] in
  let tokens := ["Infiltration"; "Effusion"] in
  extract_unique_labels column = Ok u
  ∧ tokens ≠ []
  ∧ (∀ t, t ∈ tokens → t ∈ u)
  ∧ ∃ v, snd (string_to_N_hot (str_join tokens) (notebook_of u)) = Ok v
       ∧ ∀ t, t ∈ decode u v ↔ t ∈ tokens.
Proof.
  intros column u tokens.
  assert (extract_unique_labels column = Ok u) as Hu by (vm_compute; reflexivity).
  assert (tokens ≠ []) as Hne by discriminate.
  assert (∀ t, t ∈ tokens → t ∈ u) as Hall.
  { apply Forall_forall. apply (bool_decide_unpack _). vm_compute. exact I. }
  split; [done|]. split; [done|]. split; [done|].
  destruct (encode_decode_round_trip column u tokens Hu Hne Hall)
    as (v & Hv & _ & Hdec).
  exists v. by split.
Defined.

(** C1 as stated fails for the empty set of tokens: the joined string is
    empty, splitting it gives one empty token, and the lookup of that
    token raises. *)
Lemma round_trip_fails_without_tokens :
  let column := ["Effusion|Infiltration"; "No Finding"; "Infiltration"] in
  let u := ["Effusion"; "Infiltration"; "No Finding"] in
  let tokens : list string := [] in
  extract_unique_labels column = Ok u
  ∧ (∀ t, t ∈ tokens → t ∈ u)
  ∧ str_split (str_join tokens) = [""]
  ∧ snd (string_to_N_hot (str_join tokens) (notebook_of u)) = Raise (KeyError "")
  ∧ ¬ ∃ v, snd (string_to_N_hot (str_join tokens) (notebook_of u)) = Ok v
           ∧ ∀ t, t ∈ decode u v ↔ t ∈ str_split (str_join tokens).
Proof.
  intros column u tokens.
  assert (snd (string_to_N_hot (str_join tokens) (notebook_of u))
          = Raise (KeyError "")) as Hraise by (vm_compute; reflexivity).
  split; [vm_compute; reflexivity|].
  split; [intros t Ht; by apply elem_of_nil in Ht|].
  split; [reflexivity|]. split; [done|].
  intros (v & Hv & _). rewrite Hraise in Hv. discriminate.
Qed.

(** C10: when "No Finding" is a token of the label column, it is an entry
    of the extracted vocabulary like any other, and the raw string
    "No Finding" encodes to the vector with 1.0 at its index and 0.0 at
    every other index, which is not the all-zero vector. *)
Theorem no_finding_is_ordinary (column u : list string) :
  extract_unique_labels column = Ok u →
  "No Finding" ∈ concat (str_split <$> column) →
  ∃ i v, u !! i = Some "No Finding"
       ∧ snd (string_to_N_hot "No Finding" (notebook_of u)) = Ok v
       ∧ length v = length u
       ∧ v !! i = Some 1%float
       ∧ (∀ j, j < length u → j ≠ i → v !! j = Some 0%float)
       ∧ v ≠ np_zeros (length u).
Proof.
  intros Hu Hin.
  assert ("No Finding" ∈ u) as Hnf.
  { apply extract_unique_labels_Ok in Hu as ->.
    by apply np_unique_elem_of. }
  pose proof (extracted_NoDup _ _ Hu) as Hnd.
  assert (str_split "No Finding" = ["No Finding"]) as Hsplit by reflexivity.
  apply list_elem_of_lookup in Hnf as [i Hi].
  destruct (encode_NoDup u "No Finding" Hnd) as (v & Hv & Hlen & Hget).
  { rewrite Hsplit. intros t ->%list_elem_of_singleton.
    by eapply list_elem_of_lookup_2. }
  rewrite Hsplit in Hget.
  assert (v !! i = Some 1%float) as Hone.
  { rewrite (Hget i _ Hi). rewrite decide_True; [done|]. by left. }
  exists i, v. split; [done|]. split; [done|]. split; [done|]. split; [done|].
  split.
  - intros j Hj Hne. destruct (lookup_lt_is_Some_2 u j Hj) as [t Ht].
    rewrite (Hget j t Ht). rewrite decide_False; [done|].
    intros ->%list_elem_of_singleton. apply Hne. by eapply NoDup_lookup.
  - intros ->. unfold np_zeros in Hone.
    apply lookup_replicate in Hone as [Hone _].
    by apply float_one_ne_zero.
Qed.

Lemma no_finding_is_ordinary_witness :
  let column := ["Effusion|Infiltration"; "No Finding"; "Infiltration"] in
  let u := ["Effusion"; "Infiltration"; "No Finding"] in
  extract_unique_labels column = Ok u
  ∧ "No Finding" ∈ concat (str_split <$> column)
  ∧ ∃ i v, u !! i = Some "No Finding"
         ∧ snd (string_to_N_hot "No Finding" (notebook_of u)) = Ok v
         ∧ v ≠ np_zeros (length u).
Proof.
  intros column u.
  assert (extract_unique_labels column = Ok u) as Hu by (vm_compute; reflexivity).
  assert ("No Finding" ∈ concat (str_split <$> column)) as Hin.
  { apply (bool_decide_unpack _). vm_compute. exact I. }
  split; [done|]. split; [done|].
  destruct (no_finding_is_ordinary column u Hu Hin)
    as (i & v & Hi & Hv & _ & _ & _ & Hnz).
  exists i, v. by repeat split.
Defined.

(** C5: with the sorted vocabulary ["Effusion"; "Infiltration"; "No Finding"],
    the labels "Effusion|Infiltration", "No Finding" and "Infiltration"
    encode to [1,1,0], [0,0,1] and [0,1,0]; the vocabulary is the one
    extracted from these three labels. *)
Theorem example_scenario :
  let u := ["Effusion"; "Infiltration"; "No Finding"] in
  extract_unique_labels ["Effusion|Infiltration"; "No Finding"; "Infiltration"]
    = Ok u
  ∧ snd (string_to_N_hot "Effusion|Infiltration" (notebook_of u))
    = Ok [1; 1; 0]%float
  ∧ snd (string_to_N_hot "No Finding" (notebook_of u)) = Ok [0; 0; 1]%float
  ∧ snd (string_to_N_hot "Infiltration" (notebook_of u)) = Ok [0; 1; 0]%float.
Proof. vm_compute. done. Qed.

(** ** The metadata file *)

Definition separator_free (sep : ascii) (t : string) : Prop :=
  sep ∉ String.list_ascii_of_string t.

Lemma str_append_assoc (a b c : string) : (a +:+ b) +:+ c = a +:+ (b +:+ c).
Proof.
  induction a as [|x a IH]; [done|].
  change (String x ((a +:+ b) +:+ c) = String x (a +:+ (b +:+ c))).
  by f_equal.
Qed.

Lemma str_split_on_app sep t s :
  separator_free sep t →
  str_split_on sep (t +:+ String sep s) = t :: str_split_on sep s.
Proof.
  unfold separator_free. induction t as [|c t IH]; simpl.
  { intros _. by rewrite Ascii.eqb_refl. }
  rewrite elem_of_cons. intros Hc.
  destruct (Ascii.eqb_spec c sep) as [->|_]; [destruct Hc; by left|].
  rewrite IH; [done|]. intros ?. apply Hc. by right.
Qed.

(** The lines of a text made of newline-free pieces, each followed by a
    newline: the pieces, and the empty rest behind the last newline. *)
Lemma str_split_on_terminated sep ts :
  ts ≠ [] → Forall (separator_free sep) ts →
  str_split_on sep (str_join_with (String sep EmptyString) ts
                    +:+ String sep EmptyString)
  = ts ++ [EmptyString].
Proof.
  induction ts as [|t ts IH]; [done|]. intros _ Hall.
  apply Forall_cons in Hall as [Ht Hts].
  destruct ts as [|t' ts].
  - cbn [str_join_with]. by rewrite str_split_on_app.
  - change (str_join_with (String sep EmptyString) (t :: t' :: ts))
      with (t +:+ String sep EmptyString
              +:+ str_join_with (String sep EmptyString) (t' :: ts)).
    rewrite str_append_assoc.
    change ((String sep EmptyString
               +:+ str_join_with (String sep EmptyString) (t' :: ts))
              +:+ String sep EmptyString)
      with (String sep (str_join_with (String sep EmptyString) (t' :: ts)
                        +:+ String sep EmptyString)).
    rewrite str_split_on_app by done. by rewrite IH.
Qed.

(** C6 (as amended): when the metadata file exists the cell writes
    nothing and leaves the file system, and so the file, as it was; when
    nothing exists under its name and the images directory exists, the
    cell writes that file once and changes no other name: the text is
    the records of the rows, each with the fields [file_name] and
    [labels], in the order of the rows with a newline after each, so
    that its lines are one record per row (a frame without rows gives
    the newline alone). *)
Theorem metadata_written_unless_present
    (dumps : json → string) (images_dir : string) (data : list frame_row)
    (fs : gmap string node) :
  let metadata_file := path_join images_dir "metadata.jsonl" in
  let records :=
    (λ r, dumps (JObject [("file_name", JString (col_Image_Index r));
                          ("labels", JArray (JNumber <$> col_labels r))]))
      <$> data in
  (∀ text, fs !! metadata_file = Some (RegularFile text) →
     write_metadata dumps images_dir data fs = (fs, [], Ok ())
     ∧ fst (fst (write_metadata dumps images_dir data fs)) !! metadata_file
       = Some (RegularFile text))
  ∧ (fs !! metadata_file = None → fs !! images_dir = Some Directory →
     ∃ text,
       write_metadata dumps images_dir data fs
       = (<[metadata_file := RegularFile text]> fs,
          [Written metadata_file text], Ok ())
       ∧ text = str_join_with (String newline EmptyString) records
                +:+ String newline EmptyString
       ∧ length records = length data
       ∧ (data ≠ [] → Forall (separator_free newline) records →
          str_split_on newline text = records ++ [EmptyString])
       ∧ (data = [] → text = String newline EmptyString)
       ∧ (∀ name, name ≠ metadata_file →
            fst (fst (write_metadata dumps images_dir data fs)) !! name
            = fs !! name)).
Proof.
  intros metadata_file records.
  unfold write_metadata, to_json, open_for_writing, is_file, path_str.
  cbn [path_parent path_name]. fold metadata_file. split.
  - intros text Hc. by rewrite Hc.
  - intros Hnone Hdir. rewrite Hnone, Hdir. cbn [negb].
    eexists. split; [reflexivity|].
    assert (json_lines dumps data
            = str_join_with (String newline EmptyString) records
              +:+ String newline EmptyString) as Htext by done.
    split; [done|]. split; [apply length_fmap|]. split; [|split].
    + intros Hne Hfree. rewrite Htext. apply str_split_on_terminated; [|done].
      unfold records. by destruct data.
    + intros ->. done.
    + intros name Hne. cbn [fst]. by rewrite lookup_insert_ne.
Qed.

Lemma metadata_written_unless_present_witness :
  let dumps := λ _ : json, "{}" in
  let data := [FrameRow "00000001_000.png" "Effusion" [1; 0]%float;
               FrameRow "00000002_000.png" "No Finding" [0; 1]%float] in
  let fs : gmap string node := <["images" := Directory]> ∅ in
  let metadata_file := path_join "images" "metadata.jsonl" in
  fs !! metadata_file = None
  ∧ fs !! "images" = Some Directory
  ∧ ∃ text,
      write_metadata dumps "images" data fs
      = (<[metadata_file := RegularFile text]> fs,
         [Written metadata_file text], Ok ())
      ∧ str_split_on newline text = ["{}"; "{}"; ""].
Proof.
  intros dumps data fs metadata_file.
  assert (fs !! metadata_file = None) as Hnone by (vm_compute; reflexivity).
  assert (fs !! "images" = Some Directory) as Hdir by (vm_compute; reflexivity).
  split; [done|]. split; [done|].
  destruct (metadata_written_unless_present dumps "images" data fs)
    as [_ Hwrite].
  destruct (Hwrite Hnone Hdir) as (text & Hrun & Htext & _).
  exists text. split; [exact Hrun|]. rewrite Htext. vm_compute. reflexivity.
Defined.

(** C6 as stated fails when the images directory does not exist: the
    metadata file does not exist either, yet the cell raises and writes
    nothing. *)
Lemma metadata_not_written_without_directory :
  let fs : gmap string node := ∅ in
  let metadata_file := path_join "images" "metadata.jsonl" in
  fs !! metadata_file = None
  ∧ ∀ (dumps : json → string) (data : list frame_row),
      write_metadata dumps "images" data fs
      = (fs, [], Raise (FileNotFoundError metadata_file)).
Proof. intros fs metadata_file. split; [done|]. intros dumps data. done. Qed.

(** ** The collator *)

(** C7 (as amended): for a non-empty sequence of examples whose pixel
    tensors have one shape and whose label vectors have one length, the
    collator returns a dictionary with exactly the keys [pixel_values]
    and [labels]; the pixel tensor has the number of examples as a new
    leading dimension and the label tensor has one row per example; the
    elements are those of the examples in their order, so that slice [i]
    of either tensor is the tensor, or the converted label vector, of
    example [i]. *)
Theorem collator_stacks_examples
    (to_default_dtype : float → float) (examples : list example)
    (sh : list nat) (n : nat) :
  examples ≠ [] →
  Forall (λ e, shape (pixel_values e) = sh) examples →
  Forall (λ e, length (labels e) = n) examples →
  ∃ batch pv lb,
    vit_data_collator to_default_dtype examples = Ok batch
    ∧ dom batch = {["pixel_values"; "labels"]}
    ∧ batch !! "pixel_values" = Some pv
    ∧ batch !! "labels" = Some lb
    ∧ shape pv = length examples :: sh
    ∧ shape lb = [length examples; n]
    ∧ storage pv = concat (storage <$> (pixel_values <$> examples))
    ∧ storage lb = to_default_dtype <$> concat (labels <$> examples)
    ∧ (Forall (λ e, well_formed (pixel_values e)) examples →
       ∀ i e, examples !! i = Some e →
         tensor_getitem pv i = Ok (pixel_values e))
    ∧ (∀ i e, examples !! i = Some e →
         tensor_getitem lb i = Ok (Tensor [n] (to_default_dtype <$> labels e)))
    ∧ (Forall (λ e, well_formed (pixel_values e)) examples → well_formed pv)
    ∧ well_formed lb.
Proof.
  intros Hne Hsh Hn.
  eexists _, _, _. split; [by apply (vit_data_collator_Ok _ _ sh n)|].
  split.
  { rewrite !dom_insert_L, dom_empty_L. set_solver. }
  split; [rewrite lookup_insert_ne by done; by rewrite lookup_insert_eq|].
  split; [by rewrite lookup_insert_eq|].
  split; [done|]. split; [done|]. split; [done|]. split; [done|].
  assert (Forall (λ e, well_formed (pixel_values e)) examples →
          Forall (λ l, length l = numel sh)
            (storage <$> (pixel_values <$> examples))) as Hblocks.
  { intros Hwf. rewrite <-list_fmap_compose. apply Forall_fmap.
    rewrite Forall_forall in Hsh, Hwf. apply Forall_forall. intros e' He'.
    simpl. rewrite <-(Hsh e' He'). by apply Hwf. }
  split; [|split; [|split]].
  - intros Hwf i e Hi. unfold tensor_getitem. simpl.
    rewrite decide_True by (by eapply lookup_lt_Some).
    rewrite (take_drop_concat _ (numel sh) i (storage (pixel_values e))).
    + rewrite Forall_forall in Hsh.
      rewrite <-(Hsh e) by by eapply list_elem_of_lookup_2.
      by destruct (pixel_values e).
    + by apply Hblocks.
    + by rewrite !list_lookup_fmap, Hi.
  - intros i e Hi. unfold tensor_getitem. simpl.
    rewrite decide_True by (by eapply lookup_lt_Some).
    rewrite Nat.mul_1_r, <-fmap_drop, <-fmap_take.
    rewrite (take_drop_concat _ n i (labels e)); [done|by apply Forall_fmap|].
    by rewrite list_lookup_fmap, Hi.
  - intros Hwf. unfold well_formed. simpl.
    rewrite (length_concat_blocks _ (numel sh)) by by apply Hblocks.
    by rewrite !length_fmap.
  - unfold well_formed. simpl. rewrite length_fmap.
    rewrite (length_concat_blocks _ n) by by apply Forall_fmap.
    rewrite length_fmap. lia.
Qed.

Lemma collator_stacks_examples_witness :
  let a := Example (Tensor [3; 224; 224] (replicate (3 * 224 * 224) 0.5%float))
             [1; 0; 0]%float in
  let b := Example (Tensor [3; 224; 224] (replicate (3 * 224 * 224) 0.25%float))
             [0; 1; 1]%float in
  [a; b] ≠ []
  ∧ Forall (λ e, shape (pixel_values e) = [3; 224; 224]) [a; b]
  ∧ Forall (λ e, length (labels e) = 3) [a; b]
  ∧ ∃ batch pv lb,
      vit_data_collator (λ x, x) [a; b] = Ok batch
      ∧ batch !! "pixel_values" = Some pv
      ∧ shape pv = [2; 3; 224; 224]
      ∧ batch !! "labels" = Some lb
      ∧ shape lb = [2; 3].
Proof.
  intros a b.
  assert ([a; b] ≠ []) as Hne by discriminate.
  assert (Forall (λ e, shape (pixel_values e) = [3; 224; 224]) [a; b]) as Hsh
    by (repeat constructor).
  assert (Forall (λ e, length (labels e) = 3) [a; b]) as Hn
    by (repeat constructor).
  split; [done|]. split; [done|]. split; [done|].
  destruct (collator_stacks_examples (λ x, x) [a; b] [3; 224; 224] 3 Hne Hsh Hn)
    as (batch & pv & lb & Hb & _ & Hpv & Hlb & Hshape & Hshape' & _).
  exists batch, pv, lb. by repeat split.
Defined.

(** C7 as stated fails for the empty sequence, whose examples trivially
    share one shape and one length: [torch.stack] refuses it. *)
Lemma collator_rejects_empty_sequence :
  let examples : list example := [] in
  Forall (λ e, shape (pixel_values e) = [3; 224; 224]) examples
  ∧ Forall (λ e, length (labels e) = 3) examples
  ∧ vit_data_collator (λ x, x) examples
    = Raise (RuntimeError "stack expects a non-empty TensorList")
  ∧ ¬ ∃ batch, vit_data_collator (λ x, x) examples = Ok batch.
Proof.
  intros examples. split; [constructor|]. split; [constructor|].
  split; [reflexivity|]. by intros [batch Hb].
Qed.

(** C8: when two examples of the sequence differ in the shape of their
    pixel tensors or in the length of their label vectors, the collator
    raises and returns no batch. *)
Theorem collator_rejects_mismatch
    (to_default_dtype : float → float) (examples : list example)
    (e1 e2 : example) :
  e1 ∈ examples → e2 ∈ examples →
  shape (pixel_values e1) ≠ shape (pixel_values e2)
  ∨ length (labels e1) ≠ length (labels e2) →
  (∃ err, vit_data_collator to_default_dtype examples = Raise err)
  ∧ ∀ batch, vit_data_collator to_default_dtype examples ≠ Ok batch.
Proof.
  intros H1 H2 Hne.
  destruct (vit_data_collator_raises to_default_dtype examples e1 e2 H1 H2 Hne)
    as [err Herr].
  split; [by exists err|]. intros batch. by rewrite Herr.
Qed.

Lemma collator_rejects_mismatch_witness :
  let a := Example (Tensor [3; 2; 2] (replicate 12 0%float)) [1; 0; 0]%float in
  let b := Example (Tensor [3; 2; 3] (replicate 18 0%float)) [0; 1; 1]%float in
  a ∈ [a; b] ∧ b ∈ [a; b]
  ∧ (shape (pixel_values a) ≠ shape (pixel_values b)
     ∨ length (labels a) ≠ length (labels b))
  ∧ ∃ err, vit_data_collator (λ x, x) [a; b] = Raise err.
Proof.
  intros a b.
  assert (a ∈ [a; b]) as Ha by left.
  assert (b ∈ [a; b]) as Hb by (right; left).
  assert (shape (pixel_values a) ≠ shape (pixel_values b)
          ∨ length (labels a) ≠ length (labels b)) as Hne
    by (left; discriminate).
  split; [done|]. split; [done|]. split; [done|].
  by destruct (collator_rejects_mismatch (λ x, x) [a; b] a b Ha Hb Hne)
    as [Herr _].
Defined.

(** * Further properties of the cells *)

(** ** Splitting *)

Lemma str_join_split s : str_join (str_split s) = s.
Proof.
  induction s as [|c s IH]; simpl; [done|].
  pose proof (str_split_nonempty s) as Hne.
  destruct (Ascii.eqb_spec c delimiter) as [->|_].
  - destruct (str_split s) as [|t ts]; [done|].
    change (str_join ("" :: t :: ts))
      with ("" +:+ String delimiter (str_join (t :: ts))).
    by rewrite IH.
  - destruct (str_split s) as [|t ts]; [done|].
    destruct ts as [|t' ts].
    + simpl in *. by rewrite IH.
    + change (str_join (String c t :: t' :: ts))
        with (String c (t +:+ String delimiter (str_join (t' :: ts)))).
      change (str_join (t :: t' :: ts))
        with (t +:+ String delimiter (str_join (t' :: ts))) in IH.
      by rewrite IH.
Qed.

Lemma str_split_length s :
  length (str_split s)
  = S (length (filter (λ c, c = delimiter) (String.list_ascii_of_string s))).
Proof.
  induction s as [|c s IH]; simpl; [done|].
  pose proof (str_split_nonempty s) as Hne.
  destruct (Ascii.eqb_spec c delimiter) as [->|Hc].
  - rewrite filter_cons_True by done. simpl. by rewrite IH.
  - rewrite filter_cons_False by done.
    destruct (str_split s) as [|t ts]; [done|]. simpl in *. done.
Qed.

(** X1: splitting loses nothing and cuts at every delimiter: no token
    contains the delimiter, there is one token more than there are
    delimiters in the string, and joining the tokens with the delimiter
    gives the string back. *)
Theorem split_is_lossless (s : string) :
  Forall delimiter_free (str_split s)
  ∧ length (str_split s)
    = S (length (filter (λ c, c = delimiter) (String.list_ascii_of_string s)))
  ∧ str_join (str_split s) = s.
Proof.
  split; [apply str_split_delimiter_free|].
  split; [apply str_split_length|apply str_join_split].
Qed.

(** ** The vocabulary *)

Lemma concat_split_tokens u :
  Forall delimiter_free u → concat (str_split <$> u) = u.
Proof.
  induction 1 as [|t u Ht _ IH]; [done|].
  rewrite fmap_cons. cbn [concat]. by rewrite (str_split_token t Ht), IH.
Qed.

Lemma np_unique_sorted_id u : StronglySorted str_lt u → np_unique u = u.
Proof.
  intros Hu. apply sorted_lt_unique; [apply np_unique_sorted|done|].
  apply np_unique_elem_of.
Qed.

(** X2: extraction is idempotent: a vocabulary extracted from a label
    column is its own vocabulary when it is used as a label column. *)
Theorem extraction_idempotent (column u : list string) :
  extract_unique_labels column = Ok u →
  extract_unique_labels u = Ok u.
Proof.
  intros Hu. apply extract_unique_labels_Ok.
  rewrite concat_split_tokens by by eapply extracted_delimiter_free.
  symmetry. apply np_unique_sorted_id.
  apply extract_unique_labels_Ok in Hu as ->. apply np_unique_sorted.
Qed.

Lemma extraction_idempotent_witness :
  let column := ["Effusion|Infiltration"; "No Finding"; "Infiltration"] in
  let u := ["Effusion"; "Infiltration"; "No Finding"] in
  extract_unique_labels column = Ok u ∧ extract_unique_labels u = Ok u.
Proof.
  intros column u.
  assert (extract_unique_labels column = Ok u) as Hu by (vm_compute; reflexivity).
  split; [done|]. exact (extraction_idempotent column u Hu).
Defined.

(** X3: in the dictionary built from any list, also one with repeated
    entries, the index of a key is its last position in the list. *)
Theorem label_index_keeps_last_position (u : list string) (t : string) (i : nat) :
  make_label_index u !! t = Some i →
  u !! i = Some t ∧ ∀ j : nat, u !! j = Some t → (j ≤ i)%nat.
Proof.
  intros Hi. split; [by apply make_label_index_lookup|]. revert i Hi.
  induction u as [|v u IH] using rev_ind; intros i.
  { by rewrite make_label_index_nil, lookup_empty. }
  rewrite make_label_index_snoc, lookup_insert. case_decide as Hv.
  - intros [= <-] j Hj. apply lookup_lt_Some in Hj.
    rewrite length_app in Hj. simpl in Hj. lia.
  - intros Hi j Hj.
    destruct (decide (j < length u)) as [Hlt|Hge].
    + rewrite lookup_app_l in Hj by done. by apply IH.
    + pose proof (lookup_lt_Some _ _ _ Hj) as Hlen.
      rewrite length_app in Hlen. simpl in Hlen.
      assert (j = length u) as -> by lia.
      rewrite list_lookup_middle in Hj by done. congruence.
Qed.

Lemma label_index_keeps_last_position_witness :
  make_label_index ["a"; "b"; "a"] !! "a" = Some 2
  ∧ ["a"; "b"; "a"] !! 2 = Some "a"
  ∧ ∀ j : nat, ["a"; "b"; "a"] !! j = Some "a" → (j ≤ 2)%nat.
Proof.
  assert (make_label_index ["a"; "b"; "a"] !! "a" = Some 2) as Hi
    by (vm_compute; reflexivity).
  split; [done|].
  exact (label_index_keeps_last_position ["a"; "b"; "a"] "a" 2 Hi).
Defined.

(** ** The encoder on arbitrary globals *)

Lemma np_setitems_length label indices x v :
  np_setitems label indices x = Ok v → length v = length label.
Proof.
  revert label. induction indices as [|i indices IH]; intros label;
    cbn [np_setitems].
  { by intros [= <-]. }
  unfold np_setitem. case_decide; cbn [mbind result_bind]; [|done].
  intros Hv. apply IH in Hv. by rewrite length_insert in Hv.
Qed.

Lemma np_setitems_in_range label indices x v :
  np_setitems label indices x = Ok v → Forall (λ i, i < length label) indices.
Proof.
  revert label. induction indices as [|i indices IH]; intros label;
    cbn [np_setitems]; [constructor|].
  unfold np_setitem. case_decide as Hi; cbn [mbind result_bind]; [|done].
  intros Hv. constructor; [done|]. apply IH in Hv.
  by rewrite length_insert in Hv.
Qed.

(** Assignment raises exactly at an index out of range, and names the
    first one. *)
Lemma np_setitems_Raise label indices x e :
  np_setitems label indices x = Raise e →
  ∃ i, i ∈ indices ∧ (length label ≤ i)%nat ∧ e = IndexError i (length label).
Proof.
  revert label. induction indices as [|i indices IH]; intros label;
    cbn [np_setitems]; [done|].
  unfold np_setitem. case_decide as Hi; cbn [mbind result_bind].
  - intros He. apply IH in He as (j & Hj & Hle & ->).
    rewrite length_insert in *. exists j. split; [by right|done].
  - intros [= <-]. exists i. split; [by left|]. split; [lia|done].
Qed.

Lemma returned_vector_length nb string v :
  snd (string_to_N_hot string nb) = Ok v → length v = length (unique_labels nb).
Proof.
  unfold string_to_N_hot. cbn [snd].
  destruct (mapM (dict_getitem (label_index nb)) (str_split string))
    as [idx|e0]; cbn [mbind result_bind]; [|done].
  intros Hv. apply np_setitems_length in Hv.
  unfold np_zeros in Hv. by rewrite length_replicate in Hv.
Qed.

(** The encoder on globals whose dictionary need not belong to the
    vocabulary; the stored indices are natural numbers, as [enumerate]
    gives them. *)
Lemma string_to_N_hot_nat_globals (nb : notebook) (string : string) :
  ((∃ v, snd (string_to_N_hot string nb) = Ok v)
   ↔ Forall (λ t, ∃ i, label_index nb !! t = Some i
                       ∧ i < length (unique_labels nb))
       (str_split string))
  ∧ (∀ v, snd (string_to_N_hot string nb) = Ok v →
          length v = length (unique_labels nb))
  ∧ (∀ e, snd (string_to_N_hot string nb) = Raise e →
          (∃ t, e = KeyError t ∧ t ∈ str_split string
                ∧ label_index nb !! t = None)
          ∨ (∃ t i, e = IndexError i (length (unique_labels nb))
                    ∧ t ∈ str_split string
                    ∧ label_index nb !! t = Some i
                    ∧ (length (unique_labels nb) ≤ i)%nat)).
Proof.
  unfold string_to_N_hot. cbn [snd].
  destruct (mapM (dict_getitem (label_index nb)) (str_split string))
    as [idx|e0] eqn:Hidx; cbn [mbind result_bind].
  - pose proof Hidx as Hrel. apply mapM_Ok in Hrel.
    assert (Forall2 (λ t i, label_index nb !! t = Some i) (str_split string) idx)
      as Hrel'.
    { eapply Forall2_impl; [exact Hrel|]. intros t i. apply dict_getitem_Ok. }
    split; [|split].
    + split.
      * intros [v Hv]. apply np_setitems_in_range in Hv.
        unfold np_zeros in Hv. rewrite length_replicate in Hv.
        rewrite Forall_forall in Hv. apply Forall_forall. intros t Ht.
        apply list_elem_of_lookup in Ht as [n Hn].
        destruct (Forall2_lookup_l _ _ _ _ _ Hrel' Hn) as (i & Hi & Hti).
        exists i. split; [done|]. apply Hv. by eapply list_elem_of_lookup_2.
      * intros Hall.
        destruct (np_setitems_Ok (np_zeros (length (unique_labels nb)))
                    idx 1%float) as (v & Hv & _); [|by exists v].
        unfold np_zeros. rewrite length_replicate.
        apply Forall_forall. intros i Hi.
        apply list_elem_of_lookup in Hi as [n Hn].
        destruct (Forall2_lookup_r _ _ _ _ _ Hrel' Hn) as (t & Ht & Hti).
        rewrite Forall_forall in Hall.
        destruct (Hall t) as (i' & Hi' & Hlt); [by eapply list_elem_of_lookup_2|].
        congruence.
    + intros v Hv. apply (returned_vector_length nb string).
      unfold string_to_N_hot. cbn [snd]. by rewrite Hidx.
    + intros e He. right.
      apply np_setitems_Raise in He as (i & Hi & Hle & ->).
      unfold np_zeros in *. rewrite length_replicate in *.
      apply list_elem_of_lookup in Hi as [n Hn].
      destruct (Forall2_lookup_r _ _ _ _ _ Hrel' Hn) as (t & Ht & Hti).
      exists t, i. split; [done|]. split; [by eapply list_elem_of_lookup_2|done].
  - apply mapM_Raise in Hidx as (t & Ht & Hraise).
    unfold dict_getitem in Hraise.
    destruct (label_index nb !! t) as [i|] eqn:Hl; [done|].
    injection Hraise as <-.
    split; [|split].
    + split; [by intros [v ?]|]. intros Hall. rewrite Forall_forall in Hall.
      destruct (Hall t Ht) as (i & Hi & _). congruence.
    + done.
    + intros e [= <-]. left. by exists t.
Qed.

(** X4: stale globals: when [label_index] was built by its cell from a
    list [u] and [unique_labels] has been rebound to a list [u'] since,
    [string_to_N_hot] returns a vector exactly when every token of the
    string is in [u] and the index stored for it is below the length of
    [u']; a returned vector is as long as [u']; otherwise the call raises
    the [KeyError] of a token that is not in [u] or the [IndexError] of a
    stored index that is not below the length of [u']. *)
Theorem string_to_N_hot_on_stale_globals (u u' : list string) (string : string) :
  let nb := {| unique_labels := u'; label_index := make_label_index u |} in
  ((∃ v, snd (string_to_N_hot string nb) = Ok v)
   ↔ Forall (λ t, t ∈ u ∧ ∃ i, make_label_index u !! t = Some i ∧ i < length u')
       (str_split string))
  ∧ (∀ v, snd (string_to_N_hot string nb) = Ok v → length v = length u')
  ∧ (∀ e, snd (string_to_N_hot string nb) = Raise e →
          (∃ t, e = KeyError t ∧ t ∈ str_split string ∧ t ∉ u)
          ∨ (∃ t i, e = IndexError i (length u')
                    ∧ t ∈ str_split string
                    ∧ make_label_index u !! t = Some i
                    ∧ (length u' ≤ i)%nat)).
Proof.
  intros nb.
  destruct (string_to_N_hot_nat_globals nb string) as (Hiff & Hlen & Herr).
  split; [|split; [exact Hlen|]].
  - rewrite Hiff. cbn [label_index unique_labels nb]. split.
    + intros Hall. eapply Forall_impl; [exact Hall|].
      intros t (i & Hi & Hlt). split; [|by exists i].
      apply make_label_index_is_Some. by exists i.
    + intros Hall. eapply Forall_impl; [exact Hall|]. by intros t [_ ?].
  - intros e He. destruct (Herr e He) as [(t & -> & Ht & Hnone)|Hidx].
    + left. exists t. split; [done|]. split; [done|].
      cbn [label_index nb] in Hnone.
      rewrite <-make_label_index_is_Some, Hnone. by intros [? ?].
    + by right.
Qed.

(** ** The label cells together *)

(** X5: on a frame whose finding labels are all strings (no field was
    read as missing) the label cells do not raise: the vocabulary is
    taken from the column that is encoded, so every lookup succeeds.
    Every row gets the vector of its own finding labels, as long as the
    vocabulary and with an entry 1.0. *)
Theorem label_cells_never_raise (csv : list (string * string)) :
  ∃ u rows,
    extract_unique_labels (snd <$> csv) = Ok u
    ∧ label_cells csv = Ok rows
    ∧ length rows = length csv
    ∧ ∀ i r, rows !! i = Some r →
        ∃ image finding,
          csv !! i = Some (image, finding)
          ∧ col_Image_Index r = image
          ∧ col_Finding_Labels r = finding
          ∧ snd (string_to_N_hot finding (notebook_of u)) = Ok (col_labels r)
          ∧ length (col_labels r) = length u
          ∧ 1%float ∈ col_labels r.
Proof.
  destruct (label_cells_Ok csv) as (u & rows & Hu & Hrows & Hrel).
  exists u, rows. split; [done|]. split; [done|].
  split; [symmetry; by eapply Forall2_length|].
  intros i r Hi.
  destruct (Forall2_lookup_r _ _ _ _ _ Hrel Hi) as ([image finding] & Hc & Hr).
  destruct Hr as (Him & Hfi & Henc).
  exists image, finding. split; [done|]. split; [done|]. split; [done|].
  split; [done|].
  assert (∀ t, t ∈ str_split finding → t ∈ u) as Hall.
  { intros t Ht.
    destruct (decide (t ∈ u)) as [|Hn]; [done|].
    assert (raises (encode u finding)) as [e He]
      by (apply encode_raises; eauto).
    congruence. }
  destruct (encode_NoDup u finding (extracted_NoDup _ _ Hu) Hall)
    as (v & Hv & Hlen & Hget).
  assert (v = col_labels r) as -> by congruence.
  split; [done|].
  pose proof (str_split_nonempty finding) as Hne.
  destruct (str_split finding) as [|t ts] eqn:Hsplit; [done|].
  assert (t ∈ u) as Ht by (apply Hall; by left).
  apply list_elem_of_lookup in Ht as [j Hj].
  specialize (Hget j t Hj). rewrite decide_True in Hget by left.
  by eapply list_elem_of_lookup_2.
Qed.

(** X6: the vector does not depend on the order of the tokens in the
    string nor on how often a token is repeated: two strings with the
    same known tokens encode to the same vector. *)
Theorem encoding_ignores_order_and_repetition (u : list string) (s1 s2 : string) :
  (∀ t, t ∈ str_split s1 ↔ t ∈ str_split s2) →
  (∀ t, t ∈ str_split s1 → t ∈ u) →
  ∃ v, snd (string_to_N_hot s1 (notebook_of u)) = Ok v
     ∧ snd (string_to_N_hot s2 (notebook_of u)) = Ok v.
Proof.
  intros Hsame Hall1.
  assert (∀ t, t ∈ str_split s2 → t ∈ u) as Hall2
    by (intros t Ht; by apply Hall1, Hsame).
  destruct (encode_Ok u s1 Hall1) as (v1 & Hv1 & Hlen1 & Hget1).
  destruct (encode_Ok u s2 Hall2) as (v2 & Hv2 & Hlen2 & Hget2).
  exists v1. split; [done|]. fold (encode u s2). rewrite Hv2. f_equal.
  symmetry. apply list_eq_same_length with (length u); [done..|].
  intros j x y Hj Hx Hy. rewrite Hget1 in Hx by done. rewrite Hget2 in Hy by done.
  assert (Exists (λ t, make_label_index u !! t = Some j) (str_split s1)
          ↔ Exists (λ t, make_label_index u !! t = Some j) (str_split s2)) as Hex.
  { rewrite !Exists_exists. split; intros (t & Ht & Htj); exists t;
      (split; [by apply Hsame|done]). }
  destruct (decide (Exists _ (str_split s1))) as [H1|H1];
    destruct (decide (Exists _ (str_split s2))) as [H2|H2];
    try congruence; tauto.
Qed.

Lemma encoding_ignores_order_and_repetition_witness :
  let u := ["Effusion"; "Infiltration"; "No Finding"] in
  let s1 := "Infiltration|Effusion|Infiltration" in
  let s2 := "Effusion|Infiltration" in
  (∀ t, t ∈ str_split s1 ↔ t ∈ str_split s2)
  ∧ (∀ t, t ∈ str_split s1 → t ∈ u)
  ∧ ∃ v, snd (string_to_N_hot s1 (notebook_of u)) = Ok v
       ∧ snd (string_to_N_hot s2 (notebook_of u)) = Ok v.
Proof.
  intros u s1 s2.
  assert (∀ t, t ∈ str_split s1 ↔ t ∈ str_split s2) as Hsame.
  { intros t. change (str_split s1) with ["Infiltration"; "Effusion"; "Infiltration"].
    change (str_split s2) with ["Effusion"; "Infiltration"].
    rewrite !elem_of_cons, !elem_of_nil. tauto. }
  assert (∀ t, t ∈ str_split s1 → t ∈ u) as Hall.
  { apply Forall_forall. apply (bool_decide_unpack _). vm_compute. exact I. }
  split; [done|]. split; [done|].
  exact (encoding_ignores_order_and_repetition u s1 s2 Hsame Hall).
Defined.

(** ** The titles of the displayed examples *)

Lemma elem_of_argwhere_from n label i :
  i ∈ argwhere_from n label ↔
  ∃ k x, i = n + k ∧ label !! k = Some x ∧ float_nonzero x = true.
Proof.
  revert n. induction label as [|y label IH]; intros n; cbn [argwhere_from].
  { rewrite elem_of_nil. split; [done|]. by intros (k & x & _ & ? & _). }
  assert (i ∈ argwhere_from (S n) label ↔
          ∃ k x, i = n + S k ∧ label !! k = Some x ∧ float_nonzero x = true)
    as IH'.
  { rewrite IH. split; intros (k & x & -> & Hk & Hx); exists k, x;
      (split; [lia|done]). }
  destruct (float_nonzero y) eqn:Hy.
  - rewrite elem_of_cons, IH'. split.
    + intros [->|(k & x & -> & Hk & Hx)].
      * exists 0, y. split; [lia|done].
      * by exists (S k), x.
    + intros ([|k] & x & -> & Hk & Hx); [left; lia|right]. by exists k, x.
  - rewrite IH'. split.
    + intros (k & x & -> & Hk & Hx). by exists (S k), x.
    + intros ([|k] & x & -> & Hk & Hx); simpl in Hk; [congruence|].
      by exists k, x.
Qed.

Lemma np_getitem_Ok ar i t : np_getitem ar i = Ok t ↔ ar !! i = Some t.
Proof. unfold np_getitem. destruct (ar !! i); split; congruence. Qed.

Lemma np_getitem_Raise ar i e :
  np_getitem ar i = Raise e ↔ (length ar ≤ i)%nat ∧ e = IndexError i (length ar).
Proof.
  unfold np_getitem. destruct (ar !! i) as [t|] eqn:Hi.
  - apply lookup_lt_Some in Hi. split; [done|]. intros [? _]. lia.
  - apply lookup_ge_None in Hi. split; [by intros [= <-]|by intros [_ ->]].
Qed.

Lemma mapM_cons {A B} (f : A → result B) x l :
  mapM f (x :: l) = y ← f x; k ← mapM f l; mret (y :: k).
Proof. done. Qed.

(** The tokens picked at the non-zero entries, when the entries say which
    tokens satisfy [P]. *)
Lemma np_getitems_argwhere (P : string → Prop) `{∀ t, Decision (P t)}
    (pre u : list string) (label : list float) :
  Forall2 (λ t x, float_nonzero x = bool_decide (P t)) u label →
  np_getitems (pre ++ u) (argwhere_from (length pre) label) = Ok (filter P u).
Proof.
  intros Hrel. revert pre.
  induction Hrel as [|t x u label Hx _ IH]; intros pre; [done|].
  cbn [argwhere_from]. rewrite Hx.
  specialize (IH (pre ++ [t])). rewrite length_app, <-app_assoc in IH.
  simpl in IH. rewrite Nat.add_1_r in IH.
  destruct (decide (P t)) as [HP|HP].
  - rewrite bool_decide_eq_true_2, filter_cons_True by done.
    unfold np_getitems in *. rewrite mapM_cons.
    rewrite (proj2 (np_getitem_Ok (pre ++ t :: u) (length pre) t))
      by by apply list_lookup_middle.
    cbn [mbind result_bind]. by rewrite IH.
  - rewrite bool_decide_eq_false_2, filter_cons_False by done. exact IH.
Qed.

Lemma sorted_lt_filter (P : string → Prop) `{∀ t, Decision (P t)} u :
  StronglySorted str_lt u → StronglySorted str_lt (filter P u).
Proof.
  induction 1 as [|t u _ IH Ht]; [constructor|].
  destruct (decide (P t)).
  - rewrite filter_cons_True by done. constructor; [done|].
    rewrite Forall_forall in Ht. apply Forall_forall.
    intros t' [_ Ht']%list_elem_of_filter. by apply Ht.
  - by rewrite filter_cons_False.
Qed.

(** X7: the title of a displayed example is the decoding of its label
    vector: for a string with known tokens, encoded with an extracted
    vocabulary, the title lists the distinct labels of the string in
    sorted order, separated by a comma and a space. *)
Theorem title_lists_the_labels (column u : list string) (string : string) :
  extract_unique_labels column = Ok u →
  (∀ t, t ∈ str_split string → t ∈ u) →
  ∃ v, snd (string_to_N_hot string (notebook_of u)) = Ok v
     ∧ subplot_title u v
       = Ok (str_join_with ", " (np_unique (str_split string))).
Proof.
  intros Hu Hall.
  destruct (encode_NoDup u string (extracted_NoDup _ _ Hu) Hall)
    as (v & Hv & Hlen & Hget).
  exists v. split; [done|].
  assert (np_getitems u (np_argwhere_flatten v)
          = Ok (filter (λ t, t ∈ str_split string) u)) as Hsel.
  { apply (np_getitems_argwhere _ [] u v).
    apply Forall2_same_length_lookup_2; [done|]. intros i t x Ht Hx.
    rewrite (Hget i t Ht) in Hx. injection Hx as <-.
    destruct (decide (t ∈ str_split string)).
    - by rewrite bool_decide_eq_true_2.
    - by rewrite bool_decide_eq_false_2. }
  unfold subplot_title. rewrite Hsel. cbn [mbind result_bind mret result_ret].
  do 2 f_equal. apply sorted_lt_unique.
  - apply sorted_lt_filter. apply extract_unique_labels_Ok in Hu as ->.
    apply np_unique_sorted.
  - apply np_unique_sorted.
  - intros t. rewrite list_elem_of_filter, np_unique_elem_of.
    split; [tauto|]. intros Ht. split; [done|by apply Hall].
Qed.

Lemma title_lists_the_labels_witness :
  let column := ["Effusion|Infiltration"; "No Finding"; "Infiltration"] in
  let u := ["Effusion"; "Infiltration"; "No Finding"] in
  extract_unique_labels column = Ok u
  ∧ (∀ t, t ∈ str_split "Infiltration|Effusion" → t ∈ u)
  ∧ ∃ v, snd (string_to_N_hot "Infiltration|Effusion" (notebook_of u)) = Ok v
       ∧ subplot_title u v = Ok "Effusion, Infiltration".
Proof.
  intros column u.
  assert (extract_unique_labels column = Ok u) as Hu by (vm_compute; reflexivity).
  assert (∀ t, t ∈ str_split "Infiltration|Effusion" → t ∈ u) as Hall.
  { apply Forall_forall. apply (bool_decide_unpack _). vm_compute. exact I. }
  split; [done|]. split; [done|].
  exact (title_lists_the_labels column u "Infiltration|Effusion" Hu Hall).
Defined.

(** X8: a title is produced exactly when every non-zero entry of the
    label vector has an index inside the vocabulary; otherwise the cell
    raises the [IndexError] of such an entry. A vector without non-zero
    entry gets the empty title. *)
Theorem subplot_title_bounds (u : list string) (label : list float) :
  ((∃ title, subplot_title u label = Ok title)
   ↔ ∀ i x, label !! i = Some x → float_nonzero x = true → i < length u)
  ∧ (∀ e, subplot_title u label = Raise e →
          ∃ i x, e = IndexError i (length u) ∧ label !! i = Some x
                 ∧ float_nonzero x = true ∧ (length u ≤ i)%nat)
  ∧ (Forall (λ x, float_nonzero x = false) label →
     subplot_title u label = Ok "").
Proof.
  unfold subplot_title, np_getitems, np_argwhere_flatten.
  destruct (mapM (np_getitem u) (argwhere_from 0 label)) as [names|e0] eqn:Hm;
    cbn [mbind result_bind mret result_ret].
  - apply mapM_Ok in Hm. split; [|split].
    + split; [|by eexists]. intros _ i x Hi Hx.
      assert (i ∈ argwhere_from 0 label) as Hin
        by (apply elem_of_argwhere_from; by exists i, x).
      apply list_elem_of_lookup in Hin as [n Hn].
      destruct (Forall2_lookup_l _ _ _ _ _ Hm Hn) as (t & _ & Ht).
      apply np_getitem_Ok in Ht. by eapply lookup_lt_Some.
    + done.
    + intros Hzero. do 2 f_equal.
      destruct (argwhere_from 0 label) as [|i idx] eqn:Hidx.
      { by inversion Hm. }
      assert (i ∈ argwhere_from 0 label) as Hin by (rewrite Hidx; left).
      apply elem_of_argwhere_from in Hin as (k & x & _ & Hk & Hx).
      rewrite Forall_forall in Hzero.
      rewrite (Hzero x) in Hx by by eapply list_elem_of_lookup_2. done.
  - apply mapM_Raise in Hm as (i & Hin & Hraise).
    apply np_getitem_Raise in Hraise as [Hle ->].
    apply elem_of_argwhere_from in Hin as (k & x & -> & Hk & Hx).
    simpl in *. split; [|split].
    + split; [by intros [? ?]|]. intros Hall. specialize (Hall k x Hk Hx). lia.
    + intros e [= <-]. by exists k, x.
    + intros Hzero. rewrite Forall_forall in Hzero.
      rewrite (Hzero x) in Hx by by eapply list_elem_of_lookup_2. done.
Qed.

(** ** The metadata cell, run again *)

(** X9: a run of the metadata cell that does not raise leaves the
    metadata file existing, and the cell run again, also on other data,
    then writes nothing and leaves the file system as it is; a run that
    raises has written nothing and left the file system as it was, so
    that running the cell twice always leaves what running it once
    leaves. *)
Theorem write_metadata_idempotent
    (dumps : json → string) (images_dir : string)
    (data data' : list frame_row) (fs : gmap string node) :
  let metadata_file := Path images_dir "metadata.jsonl" in
  let run := write_metadata dumps images_dir data fs in
  let fs1 := fst (fst run) in
  (snd run = Ok () →
   is_file fs1 metadata_file = true
   ∧ write_metadata dumps images_dir data' fs1 = (fs1, [], Ok ()))
  ∧ (raises (snd run) → fs1 = fs ∧ snd (fst run) = [])
  ∧ fst (fst (write_metadata dumps images_dir data fs1)) = fs1.
Proof.
  intros metadata_file run fs1.
  assert (snd run = Ok () →
          is_file fs1 metadata_file = true
          ∧ write_metadata dumps images_dir data' fs1 = (fs1, [], Ok ())) as Hok.
  { unfold fs1, run, write_metadata. fold metadata_file.
    destruct (is_file fs metadata_file) eqn:Hfile; cbn [negb fst snd].
    - intros _. split; [done|]. by rewrite Hfile.
    - unfold to_json. destruct (open_for_writing fs metadata_file) as [[]|e];
        cbn [fst snd]; [|done].
      intros _.
      assert (is_file (<[path_str metadata_file
                         := RegularFile (json_lines dumps data)]> fs)
                metadata_file = true) as Hfile'.
      { unfold is_file. by rewrite lookup_insert_eq. }
      split; [done|]. by rewrite Hfile'. }
  assert (raises (snd run) → fs1 = fs ∧ snd (fst run) = []) as Hraise.
  { unfold fs1, run, write_metadata. fold metadata_file.
    destruct (is_file fs metadata_file); cbn [negb fst snd].
    - by intros [? ?].
    - unfold to_json. destruct (open_for_writing fs metadata_file) as [[]|e];
        cbn [fst snd]; [by intros [? ?]|done]. }
  split; [done|]. split; [done|].
  destruct (result_cases (snd run)) as [[[] Hrun]|Hrun].
  - destruct (Hok Hrun) as [_ Hagain]. specialize (Hok Hrun).
    assert (write_metadata dumps images_dir data fs1 = (fs1, [], Ok ())) as ->;
      [|done].
    unfold write_metadata. fold metadata_file.
    destruct Hok as [Hfile _]. by rewrite Hfile.
  - destruct (Hraise Hrun) as [Hfs _]. rewrite Hfs. exact Hfs.
Qed.

(** ** The collator: when it raises *)

(** X10: the collator raises in two cases only, the empty sequence and
    a sequence with two examples that differ in the shape of the pixel
    tensor or in the length of the label vector. *)
Theorem collator_raises_iff
    (to_default_dtype : float → float) (examples : list example) :
  raises (vit_data_collator to_default_dtype examples)
  ↔ examples = []
    ∨ ∃ e1 e2, e1 ∈ examples ∧ e2 ∈ examples
               ∧ (shape (pixel_values e1) ≠ shape (pixel_values e2)
                  ∨ length (labels e1) ≠ length (labels e2)).
Proof.
  split.
  - intros Hr. destruct examples as [|e0 examples]; [by left|]. right.
    destruct (decide (Forall (λ e, shape (pixel_values e) = shape (pixel_values e0))
                        (e0 :: examples))) as [Hsh|Hsh].
    + destruct (decide (Forall (λ e, length (labels e) = length (labels e0))
                          (e0 :: examples))) as [Hn|Hn].
      * destruct Hr as [err Herr].
        assert (e0 :: examples ≠ []) as Hne by done.
        rewrite (vit_data_collator_Ok _ _ _ _ Hne Hsh Hn) in Herr.
        discriminate.
      * apply not_Forall_Exists in Hn; [|apply _].
        apply Exists_exists in Hn as (e & He & Hne).
        exists e, e0. split; [done|]. split; [by left|by right].
    + apply not_Forall_Exists in Hsh; [|apply _].
      apply Exists_exists in Hsh as (e & He & Hne).
      exists e, e0. split; [done|]. split; [by left|by left].
  - intros [->|(e1 & e2 & H1 & H2 & Hne)].
    + by eexists.
    + exact (vit_data_collator_raises _ _ e1 e2 H1 H2 Hne).
Qed.

(** X11: the encoder and the collator fit together: examples whose label
    vectors were encoded with one vocabulary have label vectors of one
    length, so with pixel tensors of one shape they are collated, to a
    label tensor with one row per example and one column per vocabulary
    entry. *)
Theorem encoded_examples_collate
    (to_default_dtype : float → float) (u : list string)
    (strings : list string) (examples : list example) (sh : list nat) :
  examples ≠ [] →
  Forall2 (λ s e, snd (string_to_N_hot s (notebook_of u)) = Ok (labels e))
    strings examples →
  Forall (λ e, shape (pixel_values e) = sh) examples →
  ∃ batch pv lb,
    vit_data_collator to_default_dtype examples = Ok batch
    ∧ batch !! "pixel_values" = Some pv
    ∧ shape pv = length examples :: sh
    ∧ batch !! "labels" = Some lb
    ∧ shape lb = [length examples; length u].
Proof.
  intros Hne Henc Hsh.
  assert (Forall (λ e, length (labels e) = length u) examples) as Hn.
  { apply Forall_forall. intros e He.
    apply list_elem_of_lookup in He as [i Hi].
    destruct (Forall2_lookup_r _ _ _ _ _ Henc Hi) as (s & _ & Hs).
    by apply (returned_vector_length (notebook_of u) s). }
  rewrite (vit_data_collator_Ok _ _ sh (length u) Hne Hsh Hn).
  eexists _, _, _. split; [done|]. split.
  { rewrite lookup_insert_ne by done. by rewrite lookup_insert_eq. }
  split; [done|]. split; [by rewrite lookup_insert_eq|done].
Qed.

Lemma encoded_examples_collate_witness :
  let u := ["Effusion"; "Infiltration"; "No Finding"] in
  let a := Example (Tensor [1; 2] [0.5; 0.25]%float) [1; 1; 0]%float in
  let b := Example (Tensor [1; 2] [0.75; 1]%float) [0; 0; 1]%float in
  [a; b] ≠ []
  ∧ Forall2 (λ s e, snd (string_to_N_hot s (notebook_of u)) = Ok (labels e))
      ["Effusion|Infiltration"; "No Finding"] [a; b]
  ∧ Forall (λ e, shape (pixel_values e) = [1; 2]) [a; b]
  ∧ ∃ batch lb,
      vit_data_collator (λ x, x) [a; b] = Ok batch
      ∧ batch !! "labels" = Some lb
      ∧ shape lb = [2; 3].
Proof.
  intros u a b.
  assert ([a; b] ≠ []) as Hne by discriminate.
  assert (Forall2 (λ s e, snd (string_to_N_hot s (notebook_of u)) = Ok (labels e))
            ["Effusion|Infiltration"; "No Finding"] [a; b]) as Henc
    by (repeat constructor; vm_compute; reflexivity).
  assert (Forall (λ e, shape (pixel_values e) = [1; 2]) [a; b]) as Hsh
    by (repeat constructor).
  split; [done|]. split; [done|]. split; [done|].
  destruct (encoded_examples_collate (λ x, x) u
              ["Effusion|Infiltration"; "No Finding"] [a; b] [1; 2] Hne Henc Hsh)
    as (batch & pv & lb & Hb & _ & _ & Hlb & Hshape).
  by exists batch, lb.
Defined.

(** ** The transform of a batch *)

(** X12: the transform raises exactly when the batch has no [image] list
    or the transform of one of its images raises; a batch without
    [image] list gives [KeyError]; and a call that raises leaves the
    batch as it was, without a [pixel_values] list of part of the
    images. *)
Theorem XRayTransform_failure_is_atomic {value : Type}
    (transforms : value → result value)
    (example_batch : gmap string (list value)) :
  (raises (snd (XRayTransform_call transforms example_batch))
   ↔ example_batch !! "image" = None
     ∨ ∃ images, example_batch !! "image" = Some images
                 ∧ Exists (λ x, raises (transforms x)) images)
  ∧ (example_batch !! "image" = None →
     snd (XRayTransform_call transforms example_batch) = Raise (KeyError "image"))
  ∧ (raises (snd (XRayTransform_call transforms example_batch)) →
     fst (XRayTransform_call transforms example_batch) = example_batch).
Proof.
  unfold XRayTransform_call.
  destruct (example_batch !! "image") as [images|] eqn:Him.
  - destruct (mapM transforms images) as [pvs|e] eqn:Hm; cbn [fst snd].
    + split; [|split; [done|by intros [? ?]]]. split; [by intros [? ?]|].
      intros [?|(images' & [= <-] & Hex)]; [done|].
      apply mapM_raises in Hex as [e He]. congruence.
    + split; [|split; done]. split; [|by eexists].
      intros _. right. exists images. split; [done|].
      apply mapM_raises. by exists e.
  - cbn [fst snd]. split; [|split; done]. split; [by left|by eexists].
Qed.

(** X13: a call that returns gives the batch it has changed in place: a
    [pixel_values] list with the transform of each image, in the order of
    the images, beside the lists the batch had, [image] among them; and
    transforming the returned batch again changes nothing. *)
Theorem XRayTransform_adds_pixel_values {value : Type}
    (transforms : value → result value)
    (example_batch example_batch' : gmap string (list value)) :
  snd (XRayTransform_call transforms example_batch) = Ok example_batch' →
  fst (XRayTransform_call transforms example_batch) = example_batch'
  ∧ (∃ images pixel_values,
       example_batch !! "image" = Some images
       ∧ example_batch' !! "image" = Some images
       ∧ example_batch' !! "pixel_values" = Some pixel_values
       ∧ Forall2 (λ x y, transforms x = Ok y) images pixel_values)
  ∧ (∀ key, key ≠ "pixel_values" →
       example_batch' !! key = example_batch !! key)
  ∧ XRayTransform_call transforms example_batch'
    = (example_batch', Ok example_batch').
Proof.
  unfold XRayTransform_call at 1 2.
  destruct (example_batch !! "image") as [images|] eqn:Him; [|done].
  destruct (mapM transforms images) as [pvs|e] eqn:Hm; cbn [fst snd]; [|done].
  intros [= <-]. split; [done|].
  assert (<["pixel_values" := pvs]> example_batch !! "image" = Some images)
    as Him' by by rewrite lookup_insert_ne.
  split.
  { exists images, pvs. split; [done|]. split; [done|].
    split; [by rewrite lookup_insert_eq|by apply mapM_Ok]. }
  split; [intros key Hkey; by rewrite lookup_insert_ne|].
  unfold XRayTransform_call. rewrite Him', Hm. cbn zeta.
  by rewrite insert_insert_eq.
Qed.

Lemma XRayTransform_adds_pixel_values_witness :
  let transforms := λ n : nat, Ok (n + 10) in
  let example_batch : gmap string (list nat) :=
    <["labels" := [0; 1]]> (<["image" := [1; 2]]> ∅) in
  let example_batch' := <["pixel_values" := [11; 12]]> example_batch in
  snd (XRayTransform_call transforms example_batch) = Ok example_batch'
  ∧ example_batch' !! "labels" = example_batch !! "labels"
  ∧ XRayTransform_call transforms example_batch'
    = (example_batch', Ok example_batch').
Proof.
  intros transforms example_batch example_batch'.
  assert (snd (XRayTransform_call transforms example_batch) = Ok example_batch')
    as Hcall by (vm_compute; reflexivity).
  split; [done|].
  destruct (XRayTransform_adds_pixel_values transforms example_batch
              example_batch' Hcall) as (_ & _ & Hframe & Hagain).
  split; [by apply Hframe|done].
Defined.

(** ** The records of the training log *)

Lemma str_replace_char_length old new s :
  String.length (str_replace_char old new s) = String.length s.
Proof. induction s as [|c s IH]; simpl; [done|]. by rewrite IH. Qed.

Lemma str_replace_char_absent old new s :
  new ≠ old → old ∉ String.list_ascii_of_string (str_replace_char old new s).
Proof.
  intros Hne. induction s as [|c s IH]; simpl; [apply not_elem_of_nil|].
  rewrite elem_of_cons. intros [Heq|Hin]; [|done].
  destruct (Ascii.eqb_spec c old); congruence.
Qed.

Lemma str_replace_char_id old new s :
  old ∉ String.list_ascii_of_string s → str_replace_char old new s = s.
Proof.
  induction s as [|c s IH]; simpl; [done|].
  rewrite elem_of_cons. intros Hn.
  destruct (Ascii.eqb_spec c old) as [->|_]; [destruct Hn; by left|].
  rewrite IH; [done|]. intros ?. apply Hn. by right.
Qed.

(** X14: what [json.loads] is given for a line of the log has the length
    of the line and no apostrophe, every apostrophe of the line, also one
    inside a value, being a double quote in it; a line without apostrophe
    is given as it is; and for a line the cell selects, the text begins
    with an opening brace, a double quote and the letter l. *)
Theorem requoted_record_line (line : string) :
  let text := str_replace_char apostrophe double_quote line in
  String.length text = String.length line
  ∧ (apostrophe ∉ String.list_ascii_of_string text)
  ∧ (apostrophe ∉ String.list_ascii_of_string line → text = line)
  ∧ (is_record_line line = true →
     3 < String.length line
     ∧ String.substring 0 3 text
       = String "{" (String double_quote (String "l" EmptyString))).
Proof.
  intros text. split; [apply str_replace_char_length|].
  split; [by apply str_replace_char_absent|].
  split; [apply str_replace_char_id|].
  unfold is_record_line. intros [Hlen Hpre]%andb_true_iff.
  apply Nat.ltb_lt in Hlen. split; [done|].
  apply String.eqb_eq in Hpre. unfold text.
  destruct line as [|c1 [|c2 [|c3 line]]]; simpl in *; try done.
  injection Hpre as -> -> ->.
  by destruct (str_replace_char apostrophe double_quote line).
Qed.

Section training_log_facts.
Variable json_loads : string → result json.

(** The loop appends the records of the selected lines in order, and
    stops at the first text that [json.loads] refuses. *)
Lemma collect_records_spec lines values :
  match mapM json_loads (record_texts lines) with
  | Ok vs => collect_records json_loads lines values = (values ++ vs, Ok ())
  | Raise e =>
      ∃ k vs text,
        mapM json_loads (take k (record_texts lines)) = Ok vs
        ∧ record_texts lines !! k = Some text
        ∧ json_loads text = Raise e
        ∧ collect_records json_loads lines values = (values ++ vs, Raise e)
  end.
Proof.
  revert values. induction lines as [|line lines IH]; intros values.
  { simpl. by rewrite app_nil_r. }
  cbn [collect_records]. unfold record_texts in *.
  destruct (is_record_line line) eqn:Hsel.
  - rewrite filter_cons_True by done. rewrite fmap_cons, mapM_cons.
    destruct (json_loads (str_replace_char apostrophe double_quote line))
      as [v|e] eqn:Hv; cbn [mbind result_bind].
    + specialize (IH (values ++ [v])).
      destruct (mapM json_loads _) as [vs|e] eqn:Hm;
        cbn [mbind result_bind mret result_ret].
      * by rewrite IH, <-app_assoc.
      * destruct IH as (k & vs & text & Hk & Htext & He & Hrun).
        exists (S k), (v :: vs), text. cbn [take]. rewrite mapM_cons, Hv, Hk.
        split; [done|]. split; [done|]. split; [done|].
        by rewrite Hrun, <-app_assoc.
    + exists 0, [], (str_replace_char apostrophe double_quote line).
      split; [done|]. split; [done|]. split; [done|]. by rewrite app_nil_r.
  - rewrite filter_cons_False by (by rewrite Hsel). apply IH.
Qed.
End training_log_facts.

(** X15: the cell parses the lines of the output that are longer than
    three characters and begin with an opening brace, an apostrophe and
    the letter l, in their order, and no other line: [values] ends as the
    records of all of them exactly when [json.loads] accepts each of
    their texts, and when the cell raises, [values] holds the records
    before the first text that is refused and the error is that of this
    text. *)
Theorem training_values_are_the_record_lines
    (json_loads : string → result json) (output : string) :
  let texts := record_texts (str_split_on newline output) in
  (∀ values, training_values json_loads output = (values, Ok ())
             ↔ mapM json_loads texts = Ok values)
  ∧ (∀ values e, training_values json_loads output = (values, Raise e) →
       ∃ k text, mapM json_loads (take k texts) = Ok values
                 ∧ texts !! k = Some text
                 ∧ json_loads text = Raise e).
Proof.
  intros texts. unfold training_values.
  pose proof (collect_records_spec json_loads (str_split_on newline output) [])
    as Hspec.
  fold texts in Hspec.
  destruct (mapM json_loads texts) as [vs|e0] eqn:Hm.
  - rewrite Hspec. split.
    + intros values. split; [by intros [= <-]|by intros [= <-]].
    + intros values e [=].
  - destruct Hspec as (k & vs & text & Hk & Htext & He & Hrun).
    rewrite Hrun. split.
    + intros values. split; [by intros [=]|done].
    + intros values e [= <- <-]. by exists k, text.
Qed.
